(** * safechat-sdk: the encrypted transport envelope

    A shallow embedding of [crypto.ts] (the AES-256-GCM envelope codec:
    [encrypt] and [decrypt]) and of [client.ts] (the [SafeChat] client:
    its constructor and its private [request] method), followed by the
    properties of the specification that were checked against them.

    Conventions
    - A JavaScript string is the list of its UTF-16 code units.
    - A [Buffer] is a [list byte].
    - A function that can throw returns a [result]; the exceptions that
      can be raised are the constructors of [exn].
    - The run-time services the source calls ([Buffer], [node:crypto],
      [fetch], [JSON]) are modelled after their documentation: base64 and
      UTF-8 transcoding, AES-256 (FIPS 197), GCM (NIST SP 800-38D), the
      conversion of values to strings (ECMA-262) and the path state of
      the URL parser (URL Standard) are written out; the random source
      and the network are inputs; the JSON serializer and parser are
      parameters. *)

From Stdlib Require Import String Ascii DecimalString SpecFloat.
From Stdlib Require Import List NArith ZArith Bool Lia Btauto.
From Stdlib.Strings Require Import Byte.
Import ListNotations.
Open Scope N_scope.

(* ================================================================== *)
(** * Part I. The model                                                *)
(* ================================================================== *)

(** ** Results and exceptions *)

(** The value of [json] mirrors what [JSON.parse] can return.  A number is
    an IEEE 754 binary64 value. *)
Local Unset Elimination Schemes.
Inductive json : Type :=
| JNull
| JBool (b : bool)
| JNumber (x : spec_float)
| JString (s : list N)
| JArray (items : list json)
| JObject (fields : list (list N * json)).
Local Set Elimination Schemes.

(** Exceptions.  [Error] is [new Error(message)] as the source throws it;
    the other constructors are the exceptions raised by the run time. *)
Inductive exn : Type :=
| Error (message : list N)
    (* new Error(message), thrown by crypto.ts and client.ts *)
| TypeError
    (* a TypeError of the run time: Buffer.from on a value that is not a
       string (ERR_INVALID_ARG_TYPE), or a property read on null *)
| CryptoError_InvalidIV
    (* createDecipheriv with an iv of no bytes or of more than 128 bytes:
       ERR_CRYPTO_INVALID_IV *)
| CryptoError_InvalidAuthTag (len : nat)
    (* decipher.setAuthTag: ERR_CRYPTO_INVALID_AUTH_TAG *)
| CryptoError_AuthFailed
    (* decipher.final(): Unsupported state or unable to authenticate data *)
| SyntaxError_JSON
    (* JSON.parse or res.json() on text that is not JSON *)
| NetworkError (cause : list N)
    (* fetch rejected for a reason other than the abort *)
| SafeChatError (message : json) (status : N) (body : json).
    (* class SafeChatError; [message] is the string that super() makes of
       its argument *)

Inductive result (A : Type) : Type :=
| Ok (value : A)
| Err (e : exn).
Arguments Ok {A} value.
Arguments Err {A} e.

Definition bind {A B : Type} (r : result A) (k : A -> result B) : result B :=
  match r with
  | Ok a => k a
  | Err e => Err e
  end.

Notation "'let*' x ':=' r 'in' k" := (bind r (fun x => k))
  (at level 10, x name, r at level 100, k at level 200).

(** ** JavaScript strings *)

Definition jsstring : Type := list N.

(** The code units of an ASCII literal. *)
Definition js (s : string) : jsstring :=
  map N_of_ascii (list_ascii_of_string s).

Definition jsstring_eqb (a b : jsstring) : bool :=
  if list_eq_dec N.eq_dec a b then true else false.

(** [String(n)] for a non-negative integer. *)
Definition decimal (n : N) : jsstring :=
  js (NilEmpty.string_of_uint (N.to_uint n)).

(** A string of UTF-16 code units: every unit fits 16 bits. *)
Definition is_jsstring (s : jsstring) : Prop := Forall (fun c => c < 65536) s.

Definition is_high_surrogate (c : N) : bool := (0xD800 <=? c) && (c <? 0xDC00).
Definition is_low_surrogate (c : N) : bool := (0xDC00 <=? c) && (c <? 0xE000).

(** ** JavaScript numbers *)

(** A number is an IEEE 754 binary64 value: [S754_finite s m e] is
    (-1)^s * m * 2^e, in canonical form (2^52 <= m < 2^53 and
    -1074 <= e <= 971, or m < 2^52 and e = -1074). *)
Definition number : Type := spec_float.

(** The number nearest to an integer. *)
Definition number_of_Z (z : Z) : number := binary_normalize 53 1024 z 0 false.

Definition canonical (x : number) : number :=
  match x with
  | S754_finite s m e => binary_normalize 53 1024 (if s then Zneg m else Zpos m) e s
  | _ => x
  end.

(** [Number::toString] in radix 10 (ECMA-262, 6.1.6.1.20).  The digits
    [s] and the exponent [q] of the last digit are such that s * 10^q
    rounds to the number and [s] has as few digits as possible; of two
    such [s] the one nearer to the number is taken.

    [digits_at m e q] looks for [s] at the exponent [q].  The number is
    m * 2^e; in units of 2^(e-2) it is [x = 4m], and the reals that round
    to it lie between [lo] and [hi], the bounds included when [m] is
    even.  Both sides of a comparison are scaled to integers. *)
Definition digits_at (m : positive) (e q : Z) : option Z :=
  (let below := if Pos.eqb m (2 ^ 52) && (-1074 <? e) then 1 else 2 in
   let x := 4 * Zpos m in
   let lo := x - below in
   let hi := x + 2 in
   let D := 10 ^ Z.max q 0 * 2 ^ Z.max (2 - e) 0 in
   let F := 10 ^ Z.max (- q) 0 * 2 ^ Z.max (e - 2) 0 in
   let inside s :=
     (0 <? s) &&
     (if Z.even (Zpos m)
      then (lo * F <=? s * D) && (s * D <=? hi * F)
      else (lo * F <? s * D) && (s * D <? hi * F)) in
   let s0 := (x * F) / D in
   let d0 := x * F - s0 * D in
   let d1 := (s0 + 1) * D - x * F in
   match inside s0, inside (s0 + 1) with
   | true, true =>
       Some (if d0 <? d1 then s0
             else if d1 <? d0 then s0 + 1
             else if Z.even s0 then s0 else s0 + 1)
   | true, false => Some s0
   | false, true => Some (s0 + 1)
   | false, false => None
   end)%Z.

(** The first exponent, from [q] downwards, at which digits exist.  The
    search starts above the exponent of the leading digit: the number is
    below 2^(e+53), and log10 2 < 0.30103. *)
Fixpoint shortest (fuel : nat) (m : positive) (e q : Z) : Z * Z :=
  match fuel with
  | O => (0, q)%Z
  | S fuel' =>
      match digits_at m e q with
      | Some s => (s, q)
      | None => shortest fuel' m e (q - 1)%Z
      end
  end.

Definition Number_toString (x : number) : jsstring :=
  match canonical x with
  | S754_nan => js "NaN"
  | S754_zero _ => js "0"
  | S754_infinity s => (if s then js "-" else []) ++ js "Infinity"
  | S754_finite sign m e =>
      let (s, q) := shortest 40 m e ((e + 53) * 30103 / 100000 + 2) in
      let ds := decimal (Z.to_N s) in
      let k := Z.of_nat (length ds) in
      let n := (q + k)%Z in
      let zeros (z : Z) : jsstring := repeat 48 (Z.to_nat z) in
      (if sign then js "-" else [])
      ++ (if (k <=? n) && (n <=? 21) then ds ++ zeros (n - k)
          else if (0 <? n) && (n <=? 21) then
            firstn (Z.to_nat n) ds ++ js "." ++ skipn (Z.to_nat n) ds
          else if (-6 <? n) && (n <=? 0) then js "0." ++ zeros (- n) ++ ds
          else
            firstn 1 ds
            ++ (if k =? 1 then [] else js "." ++ skipn 1 ds)
            ++ js "e"
            ++ (if 0 <=? n - 1 then js "+" else js "-")
            ++ decimal (Z.to_N (Z.abs (n - 1))))%Z
  end.

(** ** Bytes *)

Definition b2n (b : byte) : N := Byte.to_N b.

Definition n2b (n : N) : byte :=
  match Byte.of_N (n mod 256) with
  | Some b => b
  | None => x00
  end.

Definition bxor (a b : byte) : byte := n2b (N.lxor (b2n a) (b2n b)).

(** Byte-wise XOR, as long as the shorter operand. *)
Fixpoint xor_bytes (a b : list byte) : list byte :=
  match a, b with
  | x :: a', y :: b' => bxor x y :: xor_bytes a' b'
  | _, _ => []
  end.

(** Big-endian value of a byte sequence, and the [len]-byte big-endian
    representation of a number. *)
Definition be_value (bs : list byte) : N :=
  fold_left (fun acc b => acc * 256 + b2n b) bs 0.

Fixpoint be_bytes (len : nat) (n : N) : list byte :=
  match len with
  | O => []
  | S len' => be_bytes len' (n / 256) ++ [n2b n]
  end.

(** ** Base64 ([Buffer.from(s, 'base64')] and [buf.toString('base64')]) *)

Module Base64.

Definition alphabet : jsstring :=
  js "ABCDEFGHIJKLMNOPQRSTUVWXYZabcdefghijklmnopqrstuvwxyz0123456789+/".

Definition pad : N := 61. (* '=' *)

Definition digit (v : N) : N := nth (N.to_nat v) alphabet pad.

(** [buf.toString('base64')]: three bytes give four digits; the last group
    is padded with '='. *)
Fixpoint encode (bs : list byte) : jsstring :=
  match bs with
  | [] => []
  | [a] =>
      let a := b2n a in
      [digit (a / 4); digit ((a mod 4) * 16); pad; pad]
  | [a; b] =>
      let a := b2n a in
      let b := b2n b in
      [digit (a / 4); digit ((a mod 4) * 16 + b / 16);
       digit ((b mod 16) * 4); pad]
  | a :: b :: c :: rest =>
      let a := b2n a in
      let b := b2n b in
      let c := b2n c in
      digit (a / 4) :: digit ((a mod 4) * 16 + b / 16)
        :: digit ((b mod 16) * 4 + c / 64) :: digit (c mod 64)
        :: encode rest
  end.

(** The value of a base64 digit.  Node looks a code unit up by its low
    eight bits and also accepts the URL-safe digits '-' and '_'. *)
Definition unbase64 (c : N) : option N :=
  let c := c mod 256 in
  if (65 <=? c) && (c <=? 90) then Some (c - 65)
  else if (97 <=? c) && (c <=? 122) then Some (c - 97 + 26)
  else if (48 <=? c) && (c <=? 57) then Some (c - 48 + 52)
  else if (c =? 43) || (c =? 45) then Some 62
  else if (c =? 47) || (c =? 95) then Some 63
  else None.

(** The digits that are decoded: every code unit that is not a digit is
    skipped, and decoding stops at the first '='. *)
Fixpoint sextets (s : jsstring) : list N :=
  match s with
  | [] => []
  | c :: rest =>
      match unbase64 c with
      | Some v => v :: sextets rest
      | None => if c mod 256 =? pad then [] else sextets rest
      end
  end.

(** Four digits give three bytes; a last group of two (three) digits gives
    one (two) bytes and a single left-over digit gives none. *)
Fixpoint bytes_of_sextets (vs : list N) : list byte :=
  match vs with
  | v0 :: v1 :: v2 :: v3 :: rest =>
      n2b (v0 * 4 + v1 / 16) :: n2b ((v1 mod 16) * 16 + v2 / 4)
        :: n2b ((v2 mod 4) * 64 + v3) :: bytes_of_sextets rest
  | [v0; v1; v2] =>
      [n2b (v0 * 4 + v1 / 16); n2b ((v1 mod 16) * 16 + v2 / 4)]
  | [v0; v1] => [n2b (v0 * 4 + v1 / 16)]
  | _ => []
  end.

(** [Buffer.from(s, 'base64')].  It never throws on a string. *)
Definition decode (s : jsstring) : list byte := bytes_of_sextets (sextets s).

End Base64.

(** ** UTF-8 ([Buffer.from(s, 'utf8')] and [buf.toString('utf8')]) *)

Module Utf8.

Definition replacement : list byte := [xef; xbf; xbd]. (* U+FFFD *)

(** Encoding of a string: a surrogate pair gives the four bytes of its
    code point, an unpaired surrogate gives U+FFFD. *)
Fixpoint encode (s : jsstring) : list byte :=
  match s with
  | [] => []
  | c :: rest =>
      if c <? 0x80 then n2b c :: encode rest
      else if c <? 0x800 then
        n2b (0xC0 + c / 64) :: n2b (0x80 + c mod 64) :: encode rest
      else if is_high_surrogate c then
        match rest with
        | d :: rest' =>
            if is_low_surrogate d then
              let cp := 0x10000 + (c - 0xD800) * 0x400 + (d - 0xDC00) in
              n2b (0xF0 + cp / 0x40000) :: n2b (0x80 + (cp / 0x1000) mod 64)
                :: n2b (0x80 + (cp / 64) mod 64) :: n2b (0x80 + cp mod 64)
                :: encode rest'
            else replacement ++ encode rest
        | [] => replacement
        end
      else if is_low_surrogate c then replacement ++ encode rest
      else
        n2b (0xE0 + c / 0x1000) :: n2b (0x80 + (c / 64) mod 64)
          :: n2b (0x80 + c mod 64) :: encode rest
  end.

Definition in_range (lo hi : N) (b : byte) : bool :=
  (lo <=? b2n b) && (b2n b <=? hi).

Definition is_continuation (b : byte) : bool := in_range 0x80 0xBF b.

(** The code units of a code point. *)
Definition units (cp : N) : jsstring :=
  if cp <? 0x10000 then [cp]
  else [0xD800 + (cp - 0x10000) / 0x400; 0xDC00 + (cp - 0x10000) mod 0x400].

(** Decoding of a byte sequence: every maximal ill-formed part gives one
    U+FFFD; a byte order mark is kept. *)
Fixpoint decode (bs : list byte) : jsstring :=
  match bs with
  | [] => []
  | b0 :: r0 =>
      let n0 := b2n b0 in
      if n0 <? 0x80 then n0 :: decode r0
      else if in_range 0xC2 0xDF b0 then
        match r0 with
        | b1 :: r1 =>
            if is_continuation b1
            then ((n0 - 0xC0) * 64 + (b2n b1 - 0x80)) :: decode r1
            else 0xFFFD :: decode r0
        | [] => [0xFFFD]
        end
      else if in_range 0xE0 0xEF b0 then
        let lo := if n0 =? 0xE0 then 0xA0 else 0x80 in
        let hi := if n0 =? 0xED then 0x9F else 0xBF in
        match r0 with
        | b1 :: r1 =>
            if in_range lo hi b1 then
              match r1 with
              | b2 :: r2 =>
                  if is_continuation b2
                  then ((n0 - 0xE0) * 0x1000 + (b2n b1 - 0x80) * 64
                        + (b2n b2 - 0x80)) :: decode r2
                  else 0xFFFD :: decode r1
              | [] => [0xFFFD]
              end
            else 0xFFFD :: decode r0
        | [] => [0xFFFD]
        end
      else if in_range 0xF0 0xF4 b0 then
        let lo := if n0 =? 0xF0 then 0x90 else 0x80 in
        let hi := if n0 =? 0xF4 then 0x8F else 0xBF in
        match r0 with
        | b1 :: r1 =>
            if in_range lo hi b1 then
              match r1 with
              | b2 :: r2 =>
                  if is_continuation b2 then
                    match r2 with
                    | b3 :: r3 =>
                        if is_continuation b3
                        then units ((n0 - 0xF0) * 0x40000
                                    + (b2n b1 - 0x80) * 0x1000
                                    + (b2n b2 - 0x80) * 64
                                    + (b2n b3 - 0x80)) ++ decode r3
                        else 0xFFFD :: decode r2
                    | [] => [0xFFFD]
                    end
                  else 0xFFFD :: decode r1
              | [] => [0xFFFD]
              end
            else 0xFFFD :: decode r0
        | [] => [0xFFFD]
        end
      else 0xFFFD :: decode r0
  end.

(** What a string becomes when it goes through UTF-8 and back: unpaired
    surrogates are replaced by U+FFFD. *)
Fixpoint sanitize (s : jsstring) : jsstring :=
  match s with
  | [] => []
  | c :: rest =>
      if is_high_surrogate c then
        match rest with
        | d :: rest' =>
            if is_low_surrogate d then c :: d :: sanitize rest'
            else 0xFFFD :: sanitize rest
        | [] => [0xFFFD]
        end
      else if is_low_surrogate c then 0xFFFD :: sanitize rest
      else c :: sanitize rest
  end.

(** No unpaired surrogate. *)
Definition well_formed (s : jsstring) : Prop := sanitize s = s.

End Utf8.

(** ** AES-256 (FIPS 197), the block cipher behind ['aes-256-gcm'] *)

Module AES.

(** *** The field GF(2^8) *)

Definition xtime (a : byte) : byte :=
  let n := b2n a * 2 in
  if n <? 256 then n2b n else n2b (N.lxor (n - 256) 0x1b).

Fixpoint gmul_loop (n : nat) (a b acc : byte) : byte :=
  match n with
  | O => acc
  | S n' =>
      gmul_loop n' (xtime a) (n2b (b2n b / 2))
        (if N.odd (b2n b) then bxor acc a else acc)
  end.

Definition gmul (a b : byte) : byte := gmul_loop 8 a b x00.

Fixpoint gpow (n : nat) (a : byte) : byte :=
  match n with
  | O => x01
  | S n' => gmul a (gpow n' a)
  end.

(** The multiplicative inverse, with 0 sent to 0. *)
Definition ginv (a : byte) : byte := gpow 254 a.

Definition rotl8 (k : N) (a : byte) : byte :=
  let n := b2n a in
  n2b (N.lor (N.shiftl n k) (N.shiftr n (8 - k))).

(** *** The S-box *)

Definition sbox_spec (a : byte) : byte :=
  let b := ginv a in
  bxor b (bxor (rotl8 1 b) (bxor (rotl8 2 b)
    (bxor (rotl8 3 b) (bxor (rotl8 4 b) x63)))).

Definition all_bytes : list byte := map (fun n => n2b (N.of_nat n)) (seq 0 256).

Definition sbox_table : list byte := Eval vm_compute in map sbox_spec all_bytes.

Definition sbox (a : byte) : byte := nth (N.to_nat (b2n a)) sbox_table x00.

(** *** The state: four columns of four bytes *)

Definition col : Type := (byte * byte * byte * byte)%type.
Definition state : Type := (col * col * col * col)%type.

Definition xor_col (a b : col) : col :=
  let '(a0, a1, a2, a3) := a in
  let '(b0, b1, b2, b3) := b in
  (bxor a0 b0, bxor a1 b1, bxor a2 b2, bxor a3 b3).

Definition map_col (f : byte -> byte) (a : col) : col :=
  let '(a0, a1, a2, a3) := a in (f a0, f a1, f a2, f a3).

Definition zero_col : col := (x00, x00, x00, x00).

Definition col_of_bytes (bs : list byte) : col :=
  (nth 0 bs x00, nth 1 bs x00, nth 2 bs x00, nth 3 bs x00).

Definition bytes_of_col (a : col) : list byte :=
  let '(a0, a1, a2, a3) := a in [a0; a1; a2; a3].

Definition state_of_bytes (bs : list byte) : state :=
  (col_of_bytes bs, col_of_bytes (skipn 4 bs),
   col_of_bytes (skipn 8 bs), col_of_bytes (skipn 12 bs)).

Definition bytes_of_state (s : state) : list byte :=
  let '(c0, c1, c2, c3) := s in
  bytes_of_col c0 ++ bytes_of_col c1 ++ bytes_of_col c2 ++ bytes_of_col c3.

(** *** The round transformations *)

Definition sub_bytes (s : state) : state :=
  let '(c0, c1, c2, c3) := s in
  (map_col sbox c0, map_col sbox c1, map_col sbox c2, map_col sbox c3).

(** Row [r] of the state is rotated left by [r] columns. *)
Definition shift_rows (s : state) : state :=
  let '((a0, a1, a2, a3), (b0, b1, b2, b3),
        (c0, c1, c2, c3), (d0, d1, d2, d3)) := s in
  ((a0, b1, c2, d3), (b0, c1, d2, a3), (c0, d1, a2, b3), (d0, a1, b2, c3)).

Definition mul2 (a : byte) : byte := xtime a.
Definition mul3 (a : byte) : byte := bxor (xtime a) a.

Definition mix_column (a : col) : col :=
  let '(a0, a1, a2, a3) := a in
  (bxor (mul2 a0) (bxor (mul3 a1) (bxor a2 a3)),
   bxor a0 (bxor (mul2 a1) (bxor (mul3 a2) a3)),
   bxor a0 (bxor a1 (bxor (mul2 a2) (mul3 a3))),
   bxor (mul3 a0) (bxor a1 (bxor a2 (mul2 a3)))).

Definition mix_columns (s : state) : state :=
  let '(c0, c1, c2, c3) := s in
  (mix_column c0, mix_column c1, mix_column c2, mix_column c3).

Definition add_round_key (s k : state) : state :=
  let '(c0, c1, c2, c3) := s in
  let '(k0, k1, k2, k3) := k in
  (xor_col c0 k0, xor_col c1 k1, xor_col c2 k2, xor_col c3 k3).

(** *** The key schedule for a 256-bit key (Nk = 8, Nr = 14) *)

Definition rot_word (a : col) : col :=
  let '(a0, a1, a2, a3) := a in (a1, a2, a3, a0).

Definition sub_word (a : col) : col := map_col sbox a.

Definition rcon (j : nat) : col := (gpow (j - 1) x02, x00, x00, x00).

(** [w] holds the words computed so far, the latest first; [i] is the
    index of the next word. *)
Fixpoint expand (n i : nat) (w : list col) : list col :=
  match n with
  | O => w
  | S n' =>
      let prev := nth 0 w zero_col in
      let t :=
        if Nat.eqb (Nat.modulo i 8) 0
        then xor_col (sub_word (rot_word prev)) (rcon (Nat.div i 8))
        else if Nat.eqb (Nat.modulo i 8) 4 then sub_word prev
        else prev in
      expand n' (S i) (xor_col (nth 7 w zero_col) t :: w)
  end.

Fixpoint words_of_bytes (n : nat) (bs : list byte) : list col :=
  match n with
  | O => []
  | S n' => col_of_bytes bs :: words_of_bytes n' (skipn 4 bs)
  end.

Fixpoint states_of_words (n : nat) (ws : list col) : list state :=
  match n with
  | O => []
  | S n' =>
      (nth 0 ws zero_col, nth 1 ws zero_col, nth 2 ws zero_col,
       nth 3 ws zero_col) :: states_of_words n' (skipn 4 ws)
  end.

(** The fifteen round keys of a 32-byte key. *)
Definition key_expansion (key : list byte) : list state :=
  states_of_words 15 (rev (expand 52 8 (rev (words_of_bytes 8 key)))).

(** *** The cipher *)

Fixpoint rounds (rks : list state) (s : state) : state :=
  match rks with
  | [] => s
  | [rk] => add_round_key (shift_rows (sub_bytes s)) rk
  | rk :: rest =>
      rounds rest (add_round_key (mix_columns (shift_rows (sub_bytes s))) rk)
  end.

Definition cipher (rks : list state) (s : state) : state :=
  match rks with
  | [] => s
  | rk0 :: rest => rounds rest (add_round_key s rk0)
  end.

(** Encryption of one 16-byte block under an expanded key. *)
Definition encrypt_block (rks : list state) (block : list byte) : list byte :=
  bytes_of_state (cipher rks (state_of_bytes block)).

(** Equality of columns. *)
Definition col_eqb (a b : col) : bool :=
  let '(a0, a1, a2, a3) := a in
  let '(b0, b1, b2, b3) := b in
  Byte.eqb a0 b0 && Byte.eqb a1 b1 && Byte.eqb a2 b2 && Byte.eqb a3 b3.

(** *** The inverse transformations (FIPS 197, section 5.3) *)

Definition inv_sbox (b : byte) : byte :=
  match find (fun a => Byte.eqb (sbox a) b) all_bytes with
  | Some a => a
  | None => x00
  end.

Definition mul9 (a : byte) : byte := gmul a x09.
Definition mul11 (a : byte) : byte := gmul a x0b.
Definition mul13 (a : byte) : byte := gmul a x0d.
Definition mul14 (a : byte) : byte := gmul a x0e.

Definition inv_mix_column (a : col) : col :=
  let '(a0, a1, a2, a3) := a in
  (bxor (mul14 a0) (bxor (mul11 a1) (bxor (mul13 a2) (mul9 a3))),
   bxor (mul9 a0) (bxor (mul14 a1) (bxor (mul11 a2) (mul13 a3))),
   bxor (mul13 a0) (bxor (mul9 a1) (bxor (mul14 a2) (mul11 a3))),
   bxor (mul11 a0) (bxor (mul13 a1) (bxor (mul9 a2) (mul14 a3)))).

End AES.

(** ** GCM (NIST SP 800-38D) over a block cipher [E] *)

Module GCM.

(** *** Multiplication in GF(2^128) and GHASH *)

Definition R : N := 0xE1 * 2 ^ 120.

(** Bit [n - 1] of [x] is examined at step [128 - n]: the leftmost bit of
    the block comes first. *)
Fixpoint mul_loop (n : nat) (x v z : N) : N :=
  match n with
  | O => z
  | S n' =>
      mul_loop n' x
        (if N.testbit v 0 then N.lxor (N.shiftr v 1) R else N.shiftr v 1)
        (if N.testbit x (N.of_nat n') then N.lxor z v else z)
  end.

Definition mul (x y : N) : N := mul_loop 128 x y 0.

Definition ghash (h : N) (blocks : list N) : N :=
  fold_left (fun y x => mul (N.lxor y x) h) blocks 0.

(** *** Blocks *)

Definition zero_block : list byte := repeat x00 16.

Definition pad16 (chunk : list byte) : list byte :=
  chunk ++ repeat x00 (16 - length chunk).

(** The 128-bit blocks of a byte sequence, the last one padded with
    zeros.  [n] bounds the number of blocks. *)
Fixpoint blocks (n : nat) (bs : list byte) : list N :=
  match n with
  | O => []
  | S n' =>
      match bs with
      | [] => []
      | _ => be_value (pad16 (firstn 16 bs)) :: blocks n' (skipn 16 bs)
      end
  end.

Definition blocks_of (bs : list byte) : list N := blocks (length bs) bs.

Definition bit_length (bs : list byte) : N := (8 * N.of_nat (length bs)) mod 2 ^ 64.

(** *** Counter blocks *)

Definition inc32 (cb : list byte) : list byte :=
  firstn 12 cb ++ be_bytes 4 ((be_value (skipn 12 cb) + 1) mod 2 ^ 32).

Section Mode.

Variable E : list byte -> list byte.

Definition hash_key : N := be_value (E zero_block).

(** The pre-counter block J0. *)
Definition j0 (iv : list byte) : list byte :=
  if Nat.eqb (length iv) 12 then iv ++ [x00; x00; x00; x01]
  else be_bytes 16 (ghash hash_key (blocks_of iv ++ [bit_length iv])).

Fixpoint keystream (n : nat) (cb : list byte) : list byte :=
  match n with
  | O => []
  | S n' => E cb ++ keystream n' (inc32 cb)
  end.

(** GCTR: XOR with the key stream that starts at counter block [icb]. *)
Definition gctr (icb : list byte) (data : list byte) : list byte :=
  xor_bytes data (keystream (Nat.div (length data + 15) 16) icb).

(** The full 16-byte tag of ciphertext [c] with associated data [aad]. *)
Definition tag (iv aad c : list byte) : list byte :=
  let s := ghash hash_key
             (blocks_of aad ++ blocks_of c
                ++ [bit_length aad * 2 ^ 64 + bit_length c]) in
  xor_bytes (E (j0 iv)) (be_bytes 16 s).

Definition encrypt (iv aad p : list byte) : list byte * list byte :=
  let c := gctr (inc32 (j0 iv)) p in
  (c, tag iv aad c).

Definition byte_list_eqb (a b : list byte) : bool :=
  if list_eq_dec Byte.byte_eq_dec a b then true else false.

(** Decryption releases the plaintext only when the received tag [t]
    equals the leading [length t] bytes of the recomputed tag. *)
Definition decrypt (iv aad c t : list byte) : option (list byte) :=
  if byte_list_eqb (firstn (length t) (tag iv aad c)) t
  then Some (gctr (inc32 (j0 iv)) c)
  else None.

End Mode.

(** A tag length that [decipher.setAuthTag] accepts for GCM when the
    decipher was created without an [authTagLength] option. *)
Definition valid_tag_length (n : nat) : bool :=
  match n with
  | 4 | 8 | 12 | 13 | 14 | 15 | 16 => true
  | _ => false
  end%nat.

End GCM.

(** ** The random source *)

(** The bytes that [randomBytes] will return, in order. *)
Definition entropy : Type := nat -> byte.

(** [randomBytes(n)]: the next [n] bytes, and the source afterwards. *)
Definition randomBytes (n : nat) (rng : entropy) : list byte * entropy :=
  (map rng (seq 0 n), fun i => rng (n + i)%nat).

(** ** crypto.ts *)

Definition IV_BYTES : nat := 12.

(** The longest iv that [createDecipheriv] accepts for GCM (OpenSSL 3,
    the library of Node.js 18 and later: 1024 bits). *)
Definition MAX_IV_BYTES : nat := 128.

(** [interface EncryptedPayload].  The interface is not checked when JSON
    is cast to it, so a property can be absent at run time: [None]. *)
Record EncryptedPayload : Type := {
  iv : option jsstring;   (* base64 *)
  tag : option jsstring;  (* base64 *)
  data : option jsstring  (* base64 *)
}.

(** [Buffer.from(value, 'base64')] for a property that is a string or is
    absent. *)
Definition Buffer_from_base64 (value : option jsstring) : result (list byte) :=
  match value with
  | Some s => Ok (Base64.decode s)
  | None => Err TypeError
  end.

Definition invalid_key_message (len : nat) : jsstring :=
  js "Invalid encryption key: expected 32 bytes (256-bit), got "
    ++ decimal (N.of_nat len).

(** [createCipheriv('aes-256-gcm', key, iv)] and
    [createDecipheriv('aes-256-gcm', key, iv)]: the block cipher under the
    expanded key. *)
Definition aes256 (key : list byte) : list byte -> list byte :=
  AES.encrypt_block (AES.key_expansion key).

(** The body of [encrypt] on the bytes that [cipher.update(plaintext,
    'utf8')] feeds to the cipher. *)
Definition encrypt_bytes (plainbytes : list byte) (keyBase64 : jsstring)
    (rng : entropy) : result EncryptedPayload * entropy :=
  let key := Base64.decode keyBase64 in
  if negb (Nat.eqb (length key) 32) then
    (Err (Error (invalid_key_message (length key))), rng)
  else
    let (nonce, rng') := randomBytes IV_BYTES rng in
    let (encrypted, t) := GCM.encrypt (aes256 key) nonce [] plainbytes in
    (Ok {| iv := Some (Base64.encode nonce);
           tag := Some (Base64.encode t);
           data := Some (Base64.encode encrypted) |}, rng').

Definition encrypt (plaintext : jsstring) (keyBase64 : jsstring) (rng : entropy)
  : result EncryptedPayload * entropy :=
  encrypt_bytes (Utf8.encode plaintext) keyBase64 rng.

(** The body of [decrypt] up to the buffer [decrypted], before
    [decrypted.toString('utf8')]. *)
Definition decrypt_bytes (payload : EncryptedPayload) (keyBase64 : jsstring)
  : result (list byte) :=
  let key := Base64.decode keyBase64 in
  if negb (Nat.eqb (length key) 32) then
    Err (Error (invalid_key_message (length key)))
  else
    let* nonce := Buffer_from_base64 (iv payload) in
    if Nat.eqb (length nonce) 0 || Nat.ltb MAX_IV_BYTES (length nonce)
    then Err CryptoError_InvalidIV else
    let* t := Buffer_from_base64 (tag payload) in
    if negb (GCM.valid_tag_length (length t))
    then Err (CryptoError_InvalidAuthTag (length t)) else
    let* c := Buffer_from_base64 (data payload) in
    match GCM.decrypt (aes256 key) nonce [] c t with
    | Some decrypted => Ok decrypted
    | None => Err CryptoError_AuthFailed
    end.

Definition decrypt (payload : EncryptedPayload) (keyBase64 : jsstring)
  : result jsstring :=
  let* decrypted := decrypt_bytes payload keyBase64 in
  Ok (Utf8.decode decrypted).

(** ** client.ts *)

Definition DEFAULT_BASE_URL : jsstring := js "https://safechat-api.autobb.app".
Definition DEFAULT_TIMEOUT : number := Eval cbv in number_of_Z 30000.

(** [interface SafeChatOptions] (types.ts).  [apiKey] is optional here
    because the constructor tests for its absence. *)
Module SafeChatOptions.
Record t : Type := {
  apiKey : option jsstring;
  encryptionKey : option jsstring;
  baseUrl : option jsstring;
  timeout : option number
}.
End SafeChatOptions.

(** The private fields of [class SafeChat]. *)
Record SafeChat : Type := {
  apiKey : jsstring;
  encryptionKey : option jsstring;
  baseUrl : jsstring;
  timeout : number
}.

Definition slash : N := 47.

(** [s.replace(/\/+$/, '')] on the reversed string: the leading run of
    slashes is dropped. *)
Fixpoint drop_slashes (r : jsstring) : jsstring :=
  match r with
  | c :: r' => if c =? slash then drop_slashes r' else r
  | [] => []
  end.

Definition strip_trailing_slashes (s : jsstring) : jsstring :=
  rev (drop_slashes (rev s)).

(** [x ?? d] *)
Definition nullish {A : Type} (x : option A) (d : A) : A :=
  match x with
  | Some v => v
  | None => d
  end.

(** The string a condition takes for true: present and not empty. *)
Definition truthy_string (s : option jsstring) : option jsstring :=
  match s with
  | Some (c :: s') => Some (c :: s')
  | _ => None
  end.

Definition constructor (options : SafeChatOptions.t) : result SafeChat :=
  match truthy_string (SafeChatOptions.apiKey options) with
  | None => Err (Error (js "apiKey is required"))
  | Some key =>
      Ok {| apiKey := key;
            encryptionKey := SafeChatOptions.encryptionKey options;
            baseUrl := strip_trailing_slashes
                         (nullish (SafeChatOptions.baseUrl options)
                            DEFAULT_BASE_URL);
            timeout := nullish (SafeChatOptions.timeout options)
                         DEFAULT_TIMEOUT |}
  end.

(** *** The network *)

(** The argument of [fetch]. *)
Record Request : Type := {
  url : jsstring;
  method : jsstring;
  headers : list (jsstring * jsstring);
  body : option jsstring
}.

(** A [Response]: [header] is [res.headers.get] and [json] is the outcome
    of [res.json()], [None] when the body is not JSON. *)
Record Response : Type := {
  status : N;
  statusText : jsstring;
  header : jsstring -> option jsstring;
  json_body : option json
}.

(** [res.ok] *)
Definition ok (res : Response) : bool :=
  (200 <=? status res) && (status res <=? 299).

(** How the awaited [fetch] ends: with a response, with the AbortError of
    the timer, or with another rejection. *)
Inductive FetchOutcome : Type :=
| Responded (res : Response)
| Aborted
| Rejected (cause : jsstring).

(** *** Values *)

(** [o[k] = v] on an object with string values. *)
Fixpoint set_property (k v : jsstring) (o : list (jsstring * jsstring))
  : list (jsstring * jsstring) :=
  match o with
  | [] => [(k, v)]
  | (k', v') :: o' =>
      if jsstring_eqb k' k then (k, v) :: o'
      else (k', v') :: set_property k v o'
  end.

Fixpoint lookup {A : Type} (k : jsstring) (o : list (jsstring * A)) : option A :=
  match o with
  | [] => None
  | (k', v) :: o' => if jsstring_eqb k' k then Some v else lookup k o'
  end.

(** [v.k] for a property name [k] that no prototype defines: [None] is
    [undefined]; the read throws on [null]. *)
Definition get_property (v : json) (k : jsstring) : result (option json) :=
  match v with
  | JNull => Err TypeError
  | JObject fields => Ok (lookup k fields)
  | _ => Ok None
  end.

(** Truthiness of a value. *)
Definition truthy (v : json) : bool :=
  match v with
  | JNull => false
  | JBool b => b
  | JNumber (S754_zero _) | JNumber S754_nan => false
  | JNumber _ => true
  | JString [] => false
  | JString _ => true
  | JArray _ | JObject _ => true
  end.

(** [a || b] where [a] may be [undefined]. *)
Definition or_else (a : option json) (b : json) : json :=
  match a with
  | Some v => if truthy v then v else b
  | None => b
  end.

(** [ToString(v)] (ECMA-262, 7.1.17) for a value that [JSON.parse]
    returned.  An array is joined with commas, [null] items giving the
    empty string.  An object is converted by [Object.prototype.toString]
    unless it has a property [toString] of its own: that property cannot
    be called, and neither [valueOf] gives a primitive, which is a
    TypeError. *)
Fixpoint to_string (v : json) : result jsstring :=
  match v with
  | JNull => Ok (js "null")
  | JBool true => Ok (js "true")
  | JBool false => Ok (js "false")
  | JNumber x => Ok (Number_toString x)
  | JString s => Ok s
  | JArray items =>
      (fix join (items : list json) : result jsstring :=
         match items with
         | [] => Ok []
         | x :: rest =>
             let* a := match x with
                       | JNull => Ok []
                       | _ => to_string x
                       end in
             match rest with
             | [] => Ok a
             | _ :: _ => let* b := join rest in Ok (a ++ js "," ++ b)
             end
         end) items
  | JObject fields =>
      match lookup (js "toString") fields with
      | Some _ => Err TypeError
      | None => Ok (js "[object Object]")
      end
  end.

(** The object that [JSON.stringify] sees for a payload. *)
Definition json_of_payload (p : EncryptedPayload) : json :=
  let field (k : string) (v : option jsstring) :=
    match v with
    | Some s => [(js k, JString s)]
    | None => []
    end in
  JObject (field "iv"%string (iv p) ++ field "tag"%string (tag p)
             ++ field "data"%string (data p)).

(** [v as EncryptedPayload], as [decrypt] reads it.  Only a string-valued
    property is kept: [Buffer.from] throws the same TypeError for
    [undefined], [null], a number and a boolean, and so does a property
    read when [v] itself is [null].  (An array or an object as the value
    of a property is outside the interface and is treated like them.) *)
Definition as_EncryptedPayload (v : json) : EncryptedPayload :=
  let field (k : string) :=
    match v with
    | JObject fields =>
        match lookup (js k) fields with
        | Some (JString s) => Some s
        | _ => None
        end
    | _ => None
    end in
  {| iv := field "iv"%string; tag := field "tag"%string;
     data := field "data"%string |}.

(** *** The private method [request] *)

Section Negotiator.

(** [JSON.stringify] and [JSON.parse] ([None]: a SyntaxError). *)
Variable JSON_stringify : json -> jsstring.
Variable JSON_parse : jsstring -> option json.

(** Lines 161-179: the call that is handed to [fetch], or the exception
    of [encrypt]. *)
Definition build_request (c : SafeChat) (method path : jsstring)
    (body : option json) (rng : entropy) : result Request * entropy :=
  let url := baseUrl c ++ path in
  let headers :=
    [(js "X-API-Key", apiKey c); (js "Accept", js "application/json")] in
  match body with
  | None =>
      (Ok {| url := url; method := method; headers := headers;
             body := None |}, rng)
  | Some b =>
      let headers :=
        set_property (js "Content-Type") (js "application/json") headers in
      match truthy_string (encryptionKey c) with
      | Some key =>
          let headers := set_property (js "X-Encrypted") (js "true") headers in
          match encrypt (JSON_stringify b) key rng with
          | (Ok encrypted, rng') =>
              (Ok {| url := url; method := method; headers := headers;
                     body := Some (JSON_stringify (json_of_payload encrypted)) |},
               rng')
          | (Err e, rng') => (Err e, rng')
          end
      | None =>
          (Ok {| url := url; method := method; headers := headers;
                 body := Some (JSON_stringify b) |}, rng)
      end
  end.

Definition parsed (v : option json) : result json :=
  match v with
  | Some v => Ok v
  | None => Err SyntaxError_JSON
  end.

(** Lines 201-219: what [request] makes of a response. *)
Definition read_response (c : SafeChat) (res : Response) : result json :=
  if negb (ok res) then
    let errorBody :=
      match json_body res with
      | Some v => v
      | None => JObject [(js "error", JString (statusText res))]
      end in
    let* error := get_property errorBody (js "error") in
    let* message :=
      to_string
        (or_else error (JString (js "HTTP " ++ decimal (status res)))) in
    Err (SafeChatError (JString message) (status res) errorBody)
  else
    let resEncrypted :=
      match header res (js "x-encrypted") with
      | Some v => jsstring_eqb v (js "true")
      | None => false
      end in
    match resEncrypted, truthy_string (encryptionKey c) with
    | true, Some key =>
        let* encryptedBody := parsed (json_body res) in
        let* plaintext := decrypt (as_EncryptedPayload encryptedBody) key in
        parsed (JSON_parse plaintext)
    | _, _ => parsed (json_body res)
    end.

Definition timeout_message (c : SafeChat) : jsstring :=
  js "SafeChat request timed out after " ++ Number_toString (timeout c)
    ++ js "ms".

Definition request (c : SafeChat) (method path : jsstring)
    (body : option json) (rng : entropy) (fetch : Request -> FetchOutcome)
  : result json * entropy :=
  match build_request c method path body rng with
  | (Err e, rng') => (Err e, rng')
  | (Ok req, rng') =>
      match fetch req with
      | Aborted => (Err (Error (timeout_message c)), rng')
      | Rejected cause => (Err (NetworkError cause), rng')
      | Responded res => (read_response c res, rng')
      end
  end.

Definition post (c : SafeChat) (path : jsstring) (body : json) :=
  request c (js "POST") path (Some body).

Definition get (c : SafeChat) (path : jsstring) :=
  request c (js "GET") path None.

Definition del (c : SafeChat) (path : jsstring) :=
  request c (js "DELETE") path None.

End Negotiator.

(** ** An environment for the examples *)

Module Demo.

(** A serializer and a parser for the JSON texts of the examples: the
    literals, strings without escapes, arrays and objects, without white
    space.  Numbers are not covered. *)

Definition quote : N := 34.

Fixpoint join (sep : jsstring) (parts : list jsstring) : jsstring :=
  match parts with
  | [] => []
  | [x] => x
  | x :: rest => x ++ sep ++ join sep rest
  end.

Fixpoint stringify (v : json) : jsstring :=
  match v with
  | JNull | JNumber _ => js "null"
  | JBool true => js "true"
  | JBool false => js "false"
  | JString s => quote :: s ++ [quote]
  | JArray items => js "[" ++ join (js ",") (map stringify items) ++ js "]"
  | JObject fields =>
      js "{"
        ++ join (js ",")
             (map (fun kv => quote :: fst kv ++ quote :: js ":"
                               ++ stringify (snd kv)) fields)
        ++ js "}"
  end.

Fixpoint strip_prefix (p s : jsstring) : option jsstring :=
  match p, s with
  | [], _ => Some s
  | a :: p', b :: s' => if a =? b then strip_prefix p' s' else None
  | _ :: _, [] => None
  end.

(** The characters up to the closing quote. *)
Fixpoint parse_string (s : jsstring) : option (jsstring * jsstring) :=
  match s with
  | [] => None
  | c :: r =>
      if c =? quote then Some ([], r)
      else if c =? 92 then None
      else match parse_string r with
           | Some (str, r') => Some (c :: str, r')
           | None => None
           end
  end.

Section Items.

Variable parse_value : jsstring -> option (json * jsstring).

(** The items of an array after the first, up to the closing bracket. *)
Fixpoint parse_items (fuel : nat) (s : jsstring)
  : option (list json * jsstring) :=
  match fuel, s with
  | S fuel', 93 :: r => Some ([], r)
  | S fuel', 44 :: r =>
      match parse_value r with
      | Some (v, r') =>
          match parse_items fuel' r' with
          | Some (vs, r'') => Some (v :: vs, r'')
          | None => None
          end
      | None => None
      end
  | _, _ => None
  end.

Definition parse_field (s : jsstring) : option ((jsstring * json) * jsstring) :=
  match s with
  | 34 :: r =>
      match parse_string r with
      | Some (k, 58 :: r') =>
          match parse_value r' with
          | Some (v, r'') => Some ((k, v), r'')
          | None => None
          end
      | _ => None
      end
  | _ => None
  end.

(** The fields of an object after the first, up to the closing brace. *)
Fixpoint parse_fields (fuel : nat) (s : jsstring)
  : option (list (jsstring * json) * jsstring) :=
  match fuel, s with
  | S fuel', 125 :: r => Some ([], r)
  | S fuel', 44 :: r =>
      match parse_field r with
      | Some (kv, r') =>
          match parse_fields fuel' r' with
          | Some (kvs, r'') => Some (kv :: kvs, r'')
          | None => None
          end
      | None => None
      end
  | _, _ => None
  end.

End Items.

Fixpoint parse_value (fuel : nat) (s : jsstring) : option (json * jsstring) :=
  match fuel with
  | O => None
  | S fuel' =>
      match strip_prefix (js "null") s with Some r => Some (JNull, r) | None =>
      match strip_prefix (js "true") s with Some r => Some (JBool true, r) | None =>
      match strip_prefix (js "false") s with Some r => Some (JBool false, r) | None =>
      match s with
      | 34 :: r =>
          match parse_string r with
          | Some (str, r') => Some (JString str, r')
          | None => None
          end
      | 91 :: 93 :: r => Some (JArray [], r)
      | 91 :: r =>
          match parse_value fuel' r with
          | Some (v, r') =>
              match parse_items (parse_value fuel') fuel' r' with
              | Some (vs, r'') => Some (JArray (v :: vs), r'')
              | None => None
              end
          | None => None
          end
      | 123 :: 125 :: r => Some (JObject [], r)
      | 123 :: r =>
          match parse_field (parse_value fuel') r with
          | Some (kv, r') =>
              match parse_fields (parse_value fuel') fuel' r' with
              | Some (kvs, r'') => Some (JObject (kv :: kvs), r'')
              | None => None
              end
          | None => None
          end
      | _ => None
      end end end end
  end.

Definition parse (s : jsstring) : option json :=
  match parse_value (S (length s)) s with
  | Some (v, []) => Some v
  | _ => None
  end.

(** The key of the test suite: [Buffer.alloc(32, 0xab).toString('base64')]. *)
Definition key : jsstring := js "q6urq6urq6urq6urq6urq6urq6urq6urq6urq6urq6s=".

(** A random source that returns 0, 1, 2, ... *)
Definition counting : entropy := fun i => n2b (N.of_nat i).

(** A random source that returns 255 for ever. *)
Definition ones : entropy := fun _ => xff.

(** A client without and a client with the encryption key. *)
Definition plain_client : SafeChat :=
  {| apiKey := js "sc_test_123"; encryptionKey := None;
     baseUrl := js "http://localhost:8080"; timeout := DEFAULT_TIMEOUT |}.

Definition keyed_client : SafeChat :=
  {| apiKey := js "sc_test_123"; encryptionKey := Some key;
     baseUrl := js "http://localhost:8080"; timeout := DEFAULT_TIMEOUT |}.

(** A response with the given status, [x-encrypted] header and body. *)
Definition response (st : N) (encrypted : option jsstring) (b : option json)
  : Response :=
  {| status := st; statusText := [];
     header := fun name =>
       if jsstring_eqb name (js "x-encrypted") then encrypted else None;
     json_body := b |}.

(** A successful response that carries the Signal and an envelope. *)
Definition envelope : json :=
  JObject [(js "iv", JString (js "AAECAwQFBgcICQoL"));
           (js "tag", JString (js "JUjk1fTgptjAhWsgNr69zQ=="));
           (js "data", JString (js "W3l1PyhyR2IwXSzsBA=="))].

Definition flagged_response : Response :=
  response 200 (Some (js "true")) (Some envelope).

(** A response with status 500 whose body is the JSON text [null]. *)
Definition null_failure : Response := response 500 None (Some JNull).

(** A 16-byte key, and a client configured with it. *)
Definition short_key : jsstring := js "AAAAAAAAAAAAAAAAAAAAAA==".

Definition misconfigured_client : SafeChat :=
  {| apiKey := js "sc_test_123"; encryptionKey := Some short_key;
     baseUrl := js "http://localhost:8080"; timeout := DEFAULT_TIMEOUT |}.

End Demo.

(** ** Notions of the specification *)

(** A valid key: its base64 text decodes to exactly 32 bytes. *)
Definition valid_key (keyBase64 : jsstring) : Prop :=
  length (Base64.decode keyBase64) = 32%nat.

(** The nonce that a call of [encrypt] draws from the random source. *)
Definition drawn_nonce (rng : entropy) : list byte :=
  fst (randomBytes IV_BYTES rng).

(** The Signal of an outbound call: the value of its [X-Encrypted]
    header. *)
Definition request_signal (req : Request) : option jsstring :=
  lookup (js "X-Encrypted") (headers req).

(** The Signal of a response: its [x-encrypted] header is ['true']. *)
Definition response_signal (res : Response) : bool :=
  match header res (js "x-encrypted") with
  | Some v => jsstring_eqb v (js "true")
  | None => false
  end.

(** An encryption key is configured: the option is a non-empty string. *)
Definition key_configured (c : SafeChat) : bool :=
  match truthy_string (encryptionKey c) with
  | Some _ => true
  | None => false
  end.


(** ** client.ts: the public methods *)

(** An object under construction: the value of a property can be
    [undefined], [None].  Keys are distinct. *)
Definition jsobject : Type := list (jsstring * option json).

(** [o[k] = v]: the value is replaced where the key exists, and the
    property is added at the end otherwise. *)
Fixpoint assign (k : jsstring) (v : option json) (o : jsobject) : jsobject :=
  match o with
  | [] => [(k, v)]
  | (k', v') :: o' =>
      if jsstring_eqb k' k then (k, v) :: o'
      else (k', v') :: assign k v o'
  end.

(** [{ ...o, ...src }]: the properties of [src] are assigned in their
    order; spreading [undefined] adds nothing. *)
Definition spread (o : jsobject) (src : option jsobject) : jsobject :=
  fold_left (fun acc kv => assign (fst kv) (snd kv) acc) (nullish src []) o.

(** The body that [request] receives, as [JSON.stringify] sees it: a
    property whose value is [undefined] is left out. *)
Definition json_of_object (o : jsobject) : json :=
  JObject (flat_map (fun kv => match snd kv with
                               | Some v => [(fst kv, v)]
                               | None => []
                               end) o).

(** [encodeURIComponent]: a code unit of the unreserved set stands for
    itself, any other code point is written as the bytes of its UTF-8
    encoding, each as '%' and two upper-case hexadecimal digits.  [None]
    is the URIError thrown on an unpaired surrogate. *)
Definition unreserved (c : N) : bool :=
  ((65 <=? c) && (c <=? 90)) || ((97 <=? c) && (c <=? 122))
  || ((48 <=? c) && (c <=? 57))
  || existsb (N.eqb c) [45; 95; 46; 33; 126; 42; 39; 40; 41].

Definition percent_sign : N := 37.

Definition hex_digit (v : N) : N := if v <? 10 then 48 + v else 55 + v.

Definition percent (bs : list byte) : jsstring :=
  flat_map (fun b => [percent_sign; hex_digit (b2n b / 16);
                      hex_digit (b2n b mod 16)]) bs.

Fixpoint encodeURIComponent (s : jsstring) : option jsstring :=
  match s with
  | [] => Some []
  | c :: rest =>
      if unreserved c then option_map (cons c) (encodeURIComponent rest)
      else if is_high_surrogate c then
        match rest with
        | d :: rest' =>
            if is_low_surrogate d
            then option_map (app (percent (Utf8.encode [c; d])))
                   (encodeURIComponent rest')
            else None
        | [] => None
        end
      else if is_low_surrogate c then None
      else option_map (app (percent (Utf8.encode [c])))
             (encodeURIComponent rest)
  end.




(** *** The path that [fetch] requests

    [fetch] parses the URL it is given (URL Standard, 4.4, path state).
    In the path of an http or https URL a segment ends at '/' or at a
    backslash.  A double-dot segment removes the last segment of the path
    so far and a single-dot segment adds none; either one adds an empty
    segment when it ends the path.  Any other segment is added as it is:
    of the code units that [encodeURIComponent] returns none is escaped
    again.  In a double-dot or single-dot segment a dot can be written
    [%2e] or [%2E]. *)
Definition is_single_dot (segment : jsstring) : bool :=
  existsb (jsstring_eqb segment) [js "."; js "%2e"; js "%2E"].

Definition is_double_dot (segment : jsstring) : bool :=
  existsb (jsstring_eqb segment)
    [js ".."; js ".%2e"; js ".%2E"; js "%2e."; js "%2E.";
     js "%2e%2e"; js "%2e%2E"; js "%2E%2e"; js "%2E%2E"].

Definition backslash : N := 92.

(** The segments of a path that has neither query nor fragment, without
    its leading slash. *)
Fixpoint segments (s : jsstring) : list jsstring :=
  match s with
  | [] => [[]]
  | c :: r =>
      if (c =? slash) || (c =? backslash) then [] :: segments r
      else match segments r with
           | segment :: rest => (c :: segment) :: rest
           | [] => [[c]]
           end
  end.

(** The path after the segments [todo], from the path so far. *)
Fixpoint path_state (path todo : list jsstring) : list jsstring :=
  match todo with
  | [] => path
  | segment :: rest =>
      let ending : list jsstring :=
        match rest with
        | [] => [[]]
        | _ :: _ => []
        end in
      path_state
        (if is_double_dot segment then removelast path ++ ending
         else if is_single_dot segment then path ++ ending
         else path ++ [segment])
        rest
  end.

Section Api.

Variable JSON_stringify : json -> jsstring.
Variable JSON_parse : jsstring -> option json.

Definition scan (c : SafeChat) (text : jsstring) :=
  post JSON_stringify JSON_parse c (js "/v1/scan")
    (json_of_object [(js "text", Some (JString text))]).

Definition scanFile (c : SafeChat) (filename : jsstring)
    (metadata : option json) :=
  post JSON_stringify JSON_parse c (js "/v1/scan/file")
    (json_of_object [(js "filename", Some (JString filename));
                     (js "metadata", metadata)]).

Definition wrap (c : SafeChat) (text : jsstring) (options : option jsobject) :=
  post JSON_stringify JSON_parse c (js "/v1/wrap")
    (json_of_object (spread [(js "text", Some (JString text))] options)).

Definition createCanary (c : SafeChat) (sessionId : jsstring) :=
  post JSON_stringify JSON_parse c (js "/v1/canary/create")
    (json_of_object [(js "sessionId", Some (JString sessionId))]).

Definition checkCanary (c : SafeChat) (text : jsstring)
    (sessionId : option jsstring) :=
  post JSON_stringify JSON_parse c (js "/v1/canary/check")
    (json_of_object [(js "text", Some (JString text));
                     (js "sessionId", option_map JString sessionId)]).

Definition usage (c : SafeChat) :=
  get JSON_stringify JSON_parse c (js "/v1/usage").

Definition stats (c : SafeChat) :=
  get JSON_stringify JSON_parse c (js "/v1/stats").

Definition plan (c : SafeChat) :=
  get JSON_stringify JSON_parse c (js "/v1/plan").

Definition listKeys (c : SafeChat) :=
  get JSON_stringify JSON_parse c (js "/v1/keys").

Definition createKey (c : SafeChat) (name : option jsstring) :=
  post JSON_stringify JSON_parse c (js "/v1/keys")
    (json_of_object [(js "name", option_map JString name)]).

(** [None]: the URIError of [encodeURIComponent], thrown before
    [request] is entered. *)
Definition revokeKey (c : SafeChat) (id : jsstring) (rng : entropy)
    (fetch : Request -> FetchOutcome) : option (result json * entropy) :=
  match encodeURIComponent id with
  | Some e => Some (del JSON_stringify JSON_parse c (js "/v1/keys/" ++ e)
                      rng fetch)
  | None => None
  end.

End Api.

(* ================================================================== *)
(** * Part II. Properties                                              *)
(* ================================================================== *)

(** Linear arithmetic on [N] with division by constants. *)
Ltac nlia := zify; Z.to_euclidean_division_equations; lia.

(** ** Test vectors *)

(** FIPS 197, appendix C.3: AES-256 on one block. *)
Example aes256_fips197_c3 :
  aes256
    (map (fun n => n2b (N.of_nat n)) (seq 0 32))
    [x00; x11; x22; x33; x44; x55; x66; x77; x88; x99; xaa; xbb;
     xcc; xdd; xee; xff]
  = [x8e; xa2; xb7; xca; x51; x67; x45; xbf; xea; xfc; x49; x90;
     x4b; x49; x60; x89].
Proof. vm_compute. reflexivity. Qed.

(** The GCM specification, test case 14: a zero key, a zero nonce and one
    zero block. *)
Example gcm_test_case_14 :
  GCM.encrypt (aes256 (repeat x00 32)) (repeat x00 12) [] (repeat x00 16)
  = ([xce; xa7; x40; x3d; x4d; x60; x6b; x6e; x07; x4e; xc5; xd3;
     xba; xf3; x9d; x18],
     [xd0; xd1; xc8; xa7; x99; x99; x6b; xf0; x26; x5b; x98; xb5;
     xd4; x8a; xb9; x19]).
Proof. vm_compute. reflexivity. Qed.

(** The GCM specification, test case 17: a 64-bit nonce and associated
    data. *)
Example gcm_test_case_17 :
  GCM.encrypt
    (aes256
       [xfe; xff; xe9; x92; x86; x65; x73; x1c; x6d; x6a; x8f; x94;
     x67; x30; x83; x08; xfe; xff; xe9; x92; x86; x65; x73; x1c;
     x6d; x6a; x8f; x94; x67; x30; x83; x08])
    [xca; xfe; xba; xbe; xfa; xce; xdb; xad]
    [xfe; xed; xfa; xce; xde; xad; xbe; xef; xfe; xed; xfa; xce;
     xde; xad; xbe; xef; xab; xad; xda; xd2]
    [xd9; x31; x32; x25; xf8; x84; x06; xe5; xa5; x59; x09; xc5;
     xaf; xf5; x26; x9a; x86; xa7; xa9; x53; x15; x34; xf7; xda;
     x2e; x4c; x30; x3d; x8a; x31; x8a; x72; x1c; x3c; x0c; x95;
     x95; x68; x09; x53; x2f; xcf; x0e; x24; x49; xa6; xb5; x25;
     xb1; x6a; xed; xf5; xaa; x0d; xe6; x57; xba; x63; x7b; x39]
  = ([xc3; x76; x2d; xf1; xca; x78; x7d; x32; xae; x47; xc1; x3b;
     xf1; x98; x44; xcb; xaf; x1a; xe1; x4d; x0b; x97; x6a; xfa;
     xc5; x2f; xf7; xd7; x9b; xba; x9d; xe0; xfe; xb5; x82; xd3;
     x39; x34; xa4; xf0; x95; x4c; xc2; x36; x3b; xc7; x3f; x78;
     x62; xac; x43; x0e; x64; xab; xe4; x99; xf4; x7c; x9b; x1f],
     [x3a; x33; x7d; xbf; x46; xa7; x92; xc4; x5e; x45; x49; x13;
     xfe; x2e; xa8; xf2]).
Proof. vm_compute. reflexivity. Qed.

(** An encrypted exchange: the body goes out as an envelope with the
    Signal set, and the envelope of the response is decrypted and
    parsed. *)
Example encrypted_exchange :
  fst (post Demo.stringify Demo.parse Demo.keyed_client (js "/v1/scan")
         (JObject [(js "text", JString (js "hello"))]) Demo.counting
         (fun req =>
            match request_signal req with
            | Some _ => Responded Demo.flagged_response
            | None => Rejected (js "plain")
            end))
  = Ok (JObject [(js "safe", JBool true)]).
Proof. vm_compute. reflexivity. Qed.

(** ** Bytes *)

Lemma b2n_lt (b : byte) : b2n b < 256.
Proof. unfold b2n. pose proof (Byte.to_N_bounded b). lia. Qed.

Lemma n2b_b2n (b : byte) : n2b (b2n b) = b.
Proof.
  unfold n2b, b2n. rewrite N.mod_small by apply b2n_lt.
  now rewrite Byte.of_to_N.
Qed.

Lemma b2n_n2b_mod (n : N) : b2n (n2b n) = n mod 256.
Proof.
  unfold n2b, b2n.
  destruct (Byte.of_N (n mod 256)) as [b|] eqn:E.
  - now apply Byte.to_of_N.
  - apply Byte.of_N_None_iff in E.
    pose proof (N.mod_lt n 256). lia.
Qed.

Lemma b2n_n2b (n : N) : n < 256 -> b2n (n2b n) = n.
Proof. intros H. rewrite b2n_n2b_mod. now apply N.mod_small. Qed.

Lemma b2n_inj (a b : byte) : b2n a = b2n b -> a = b.
Proof. intros H. rewrite <- (n2b_b2n a), <- (n2b_b2n b). now rewrite H. Qed.

(** A property checked on the first [n] numbers holds below [n]. *)
Lemma forallb_below (P : N -> bool) (n : nat) :
  forallb P (map N.of_nat (seq 0 n)) = true ->
  forall v, v < N.of_nat n -> P v = true.
Proof.
  intros H v Hv. rewrite forallb_forall in H. apply H.
  apply in_map_iff. exists (N.to_nat v). split.
  - apply N2Nat.id.
  - apply in_seq. lia.
Qed.

(** A property checked on every byte value holds for every byte. *)
Lemma forallb_bytes (P : byte -> bool) :
  forallb P AES.all_bytes = true -> forall b, P b = true.
Proof.
  intros H b. rewrite forallb_forall in H. apply H.
  unfold AES.all_bytes. apply in_map_iff.
  exists (N.to_nat (b2n b)). split.
  - rewrite N2Nat.id. apply n2b_b2n.
  - apply in_seq. pose proof (b2n_lt b). lia.
Qed.

(** Lists, three elements at a time. *)
Lemma list_ind3 (A : Type) (P : list A -> Prop) :
  P [] -> (forall a, P [a]) -> (forall a b, P [a; b]) ->
  (forall a b c l, P l -> P (a :: b :: c :: l)) ->
  forall l, P l.
Proof.
  intros H0 H1 H2 H3. fix IH 1.
  intros [|a [|b [|c l]]].
  - exact H0.
  - apply H1.
  - apply H2.
  - apply H3, IH.
Qed.

(** ** Base64 *)

Section Base64Facts.

Import Base64.

Lemma unbase64_digit (v : N) : v < 64 -> unbase64 (digit v) = Some v.
Proof.
  intros H.
  assert (G : (match unbase64 (digit v) with
               | Some w => w =? v
               | None => false
               end) = true).
  { revert v H. apply (forallb_below _ 64). vm_compute. reflexivity. }
  destruct (unbase64 (digit v)); [|discriminate].
  apply N.eqb_eq in G. now subst.
Qed.

Lemma sextets_digit (v : N) (s : jsstring) :
  v < 64 -> sextets (digit v :: s) = v :: sextets s.
Proof. intros H. cbn [sextets]. now rewrite unbase64_digit. Qed.

Lemma sextets_pad (s : jsstring) : sextets (pad :: s) = [].
Proof. reflexivity. Qed.

(** Decoding inverts encoding. *)
Lemma decode_encode (bs : list byte) : decode (encode bs) = bs.
Proof.
  unfold decode. induction bs as [|a|a b|a b c l IH] using list_ind3.
  - reflexivity.
  - pose proof (b2n_lt a).
    cbn [encode]. cbv zeta.
    rewrite !sextets_digit, sextets_pad by nlia.
    cbn [bytes_of_sextets].
    replace (b2n a / 4 * 4 + b2n a mod 4 * 16 / 16) with (b2n a) by nlia.
    now rewrite n2b_b2n.
  - pose proof (b2n_lt a). pose proof (b2n_lt b).
    cbn [encode]. cbv zeta.
    rewrite !sextets_digit, sextets_pad by nlia.
    cbn [bytes_of_sextets].
    replace (b2n a / 4 * 4 + (b2n a mod 4 * 16 + b2n b / 16) / 16)
      with (b2n a) by nlia.
    replace ((b2n a mod 4 * 16 + b2n b / 16) mod 16 * 16
             + b2n b mod 16 * 4 / 4) with (b2n b) by nlia.
    now rewrite !n2b_b2n.
  - pose proof (b2n_lt a). pose proof (b2n_lt b). pose proof (b2n_lt c).
    cbn [encode]. cbv zeta.
    rewrite !sextets_digit by nlia.
    cbn [bytes_of_sextets]. rewrite IH.
    replace (b2n a / 4 * 4 + (b2n a mod 4 * 16 + b2n b / 16) / 16)
      with (b2n a) by nlia.
    replace ((b2n a mod 4 * 16 + b2n b / 16) mod 16 * 16
             + (b2n b mod 16 * 4 + b2n c / 64) / 4) with (b2n b) by nlia.
    replace ((b2n b mod 16 * 4 + b2n c / 64) mod 4 * 64 + b2n c mod 64)
      with (b2n c) by nlia.
    now rewrite !n2b_b2n.
Qed.

Lemma encode_inj (a b : list byte) : encode a = encode b -> a = b.
Proof.
  intros H. rewrite <- (decode_encode a), <- (decode_encode b).
  now rewrite H.
Qed.

End Base64Facts.

(** ** UTF-8 *)

Section Utf8Facts.

Import Utf8.

(** Settles a comparison of the goal whose outcome arithmetic decides. *)
Ltac settle_test :=
  match goal with
  | |- context [N.ltb ?a ?b] =>
      first [ replace (N.ltb a b) with true
                by (symmetry; apply N.ltb_lt; nlia)
            | replace (N.ltb a b) with false
                by (symmetry; apply N.ltb_ge; nlia) ]
  | |- context [N.leb ?a ?b] =>
      first [ replace (N.leb a b) with true
                by (symmetry; apply N.leb_le; nlia)
            | replace (N.leb a b) with false
                by (symmetry; apply N.leb_gt; nlia) ]
  | |- context [N.eqb ?a ?b] =>
      first [ replace (N.eqb a b) with true
                by (symmetry; apply N.eqb_eq; nlia)
            | replace (N.eqb a b) with false
                by (symmetry; apply N.eqb_neq; nlia) ]
  end.

Ltac settle := repeat (settle_test; cbn [andb orb negb]).

Lemma decode_1 (c : N) (r : list byte) :
  c < 0x80 -> decode (n2b c :: r) = c :: decode r.
Proof.
  intros H. cbn [decode]. cbv zeta. rewrite b2n_n2b by lia. now settle.
Qed.

Lemma decode_2 (c : N) (r : list byte) :
  0x80 <= c < 0x800 ->
  decode (n2b (0xC0 + c / 64) :: n2b (0x80 + c mod 64) :: r) = c :: decode r.
Proof.
  intros H. cbn [decode]. cbv zeta. unfold is_continuation, in_range.
  rewrite !b2n_n2b by nlia. settle.
  f_equal. nlia.
Qed.

Lemma decode_3 (c : N) (r : list byte) :
  0x800 <= c < 0x10000 -> ~ (0xD800 <= c < 0xE000) ->
  decode (n2b (0xE0 + c / 0x1000) :: n2b (0x80 + (c / 64) mod 64)
            :: n2b (0x80 + c mod 64) :: r) = c :: decode r.
Proof.
  intros H S. cbn [decode]. cbv zeta. unfold is_continuation, in_range.
  rewrite !b2n_n2b by nlia.
  destruct (N.eqb_spec (0xE0 + c / 0x1000) 0xE0);
    destruct (N.eqb_spec (0xE0 + c / 0x1000) 0xED);
    settle; f_equal; nlia.
Qed.

Lemma decode_4 (cp : N) (r : list byte) :
  0x10000 <= cp < 0x110000 ->
  decode (n2b (0xF0 + cp / 0x40000) :: n2b (0x80 + (cp / 0x1000) mod 64)
            :: n2b (0x80 + (cp / 64) mod 64) :: n2b (0x80 + cp mod 64) :: r)
  = units cp ++ decode r.
Proof.
  intros H. cbn [decode]. cbv zeta. unfold is_continuation, in_range.
  rewrite !b2n_n2b by nlia.
  destruct (N.eqb_spec (0xF0 + cp / 0x40000) 0xF0);
    destruct (N.eqb_spec (0xF0 + cp / 0x40000) 0xF4);
    settle; do 2 f_equal; nlia.
Qed.

Lemma decode_replacement (r : list byte) :
  decode (replacement ++ r) = 0xFFFD :: decode r.
Proof. exact (decode_3 0xFFFD r ltac:(lia) ltac:(lia)). Qed.

Lemma surrogate_tests (c : N) :
  (is_high_surrogate c = true <-> 0xD800 <= c < 0xDC00) /\
  (is_low_surrogate c = true <-> 0xDC00 <= c < 0xE000).
Proof.
  unfold is_high_surrogate, is_low_surrogate.
  rewrite !andb_true_iff, !N.leb_le, !N.ltb_lt. tauto.
Qed.

(** Decoding the encoding of a string gives the string with its unpaired
    surrogates replaced. *)
Lemma decode_encode_sanitize (s : jsstring) :
  is_jsstring s -> decode (encode s) = sanitize s.
Proof.
  remember (length s) as n eqn:Hn.
  revert s Hn. induction n as [n IH] using lt_wf_ind.
  intros [|c rest] Hn W; [reflexivity|].
  inversion W as [|? ? Hc Wrest]; subst.
  assert (IHrest : decode (encode rest) = sanitize rest).
  { apply (IH (length rest)); cbn; auto. }
  cbn [encode sanitize].
  destruct (N.ltb_spec c 0x80) as [L1|L1].
  { rewrite decode_1 by assumption. rewrite IHrest.
    replace (is_high_surrogate c) with false; [|symmetry].
    replace (is_low_surrogate c) with false; [reflexivity|symmetry].
    all: apply not_true_is_false; intros T;
      apply (surrogate_tests c) in T; lia. }
  destruct (N.ltb_spec c 0x800) as [L2|L2].
  { rewrite decode_2 by lia. rewrite IHrest.
    replace (is_high_surrogate c) with false; [|symmetry].
    replace (is_low_surrogate c) with false; [reflexivity|symmetry].
    all: apply not_true_is_false; intros T;
      apply (surrogate_tests c) in T; lia. }
  destruct (is_high_surrogate c) eqn:Hh.
  { apply (surrogate_tests c) in Hh.
    destruct rest as [|d rest']; [exact (decode_replacement [])|].
    destruct (is_low_surrogate d) eqn:Hl.
    - apply (surrogate_tests d) in Hl. cbv zeta.
      rewrite decode_4 by lia.
      inversion Wrest; subst.
      rewrite (IH (length rest')) by (cbn; auto; cbn in *; lia).
      unfold units. settle.
      cbn [app]. do 2 f_equal; [nlia|f_equal; nlia].
    - rewrite decode_replacement. now rewrite IHrest. }
  destruct (is_low_surrogate c) eqn:Hl.
  { rewrite decode_replacement. now rewrite IHrest. }
  rewrite decode_3; [now rewrite IHrest|lia|].
  intros S.
  destruct (N.lt_ge_cases c 0xDC00).
  - apply not_true_iff_false in Hh. apply Hh, (surrogate_tests c). lia.
  - apply not_true_iff_false in Hl. apply Hl, (surrogate_tests c). lia.
Qed.

(** The replacement does not change the encoding. *)
Lemma encode_sanitize (s : jsstring) : encode (sanitize s) = encode s.
Proof.
  remember (length s) as n eqn:Hn.
  revert s Hn. induction n as [n IH] using lt_wf_ind.
  intros [|c rest] Hn; [reflexivity|]. subst n.
  assert (IHrest : encode (sanitize rest) = encode rest).
  { apply (IH (length rest)); cbn; auto. }
  assert (FFFD : forall r, encode (0xFFFD :: r) = replacement ++ encode r).
  { reflexivity. }
  cbn [encode sanitize].
  destruct (N.ltb_spec c 0x80) as [L1|L1].
  { replace (is_high_surrogate c) with false; [|symmetry].
    replace (is_low_surrogate c) with false; [|symmetry].
    2,3: apply not_true_is_false; intros T;
      apply (surrogate_tests c) in T; lia.
    cbn [encode]. apply N.ltb_lt in L1. rewrite L1. now rewrite IHrest. }
  destruct (N.ltb_spec c 0x800) as [L2|L2].
  { replace (is_high_surrogate c) with false; [|symmetry].
    replace (is_low_surrogate c) with false; [|symmetry].
    2,3: apply not_true_is_false; intros T;
      apply (surrogate_tests c) in T; lia.
    cbn [encode]. apply N.ltb_ge in L1. apply N.ltb_lt in L2.
    rewrite L1, L2. now rewrite IHrest. }
  apply N.ltb_ge in L1. apply N.ltb_ge in L2.
  destruct (is_high_surrogate c) eqn:Hh.
  { destruct rest as [|d rest']; [reflexivity|].
    destruct (is_low_surrogate d) eqn:Hl.
    - cbn [encode]. rewrite L1, L2, Hh, Hl. cbv zeta.
      now rewrite (IH (length rest')) by (cbn; auto; cbn in *; lia).
    - rewrite FFFD. now rewrite IHrest. }
  destruct (is_low_surrogate c) eqn:Hl.
  { rewrite FFFD. now rewrite IHrest. }
  cbn [encode]. rewrite L1, L2, Hh, Hl. now rewrite IHrest.
Qed.

End Utf8Facts.

(** ** XOR on bytes *)

Lemma bxor_cancel (a b : byte) : bxor (bxor a b) b = a.
Proof.
  apply Byte.byte_dec_bl.
  revert b. apply forallb_bytes. revert a. apply forallb_bytes.
  vm_compute. reflexivity.
Qed.

Lemma bxor_comm (a b : byte) : bxor a b = bxor b a.
Proof. unfold bxor. now rewrite N.lxor_comm. Qed.

Lemma bxor_inj_l (a b c : byte) : bxor a c = bxor b c -> a = b.
Proof.
  intros H. rewrite <- (bxor_cancel a c), <- (bxor_cancel b c).
  now rewrite H.
Qed.

Lemma bxor_inj_r (a b c : byte) : bxor c a = bxor c b -> a = b.
Proof. rewrite !(bxor_comm c). apply bxor_inj_l. Qed.

Lemma xor_bytes_length (a b : list byte) :
  length (xor_bytes a b) = Nat.min (length a) (length b).
Proof.
  revert b. induction a as [|x a IH]; intros [|y b]; cbn; auto.
Qed.

Lemma xor_bytes_cancel (p ks : list byte) :
  (length p <= length ks)%nat -> xor_bytes (xor_bytes p ks) ks = p.
Proof.
  revert ks. induction p as [|x p IH]; intros [|y ks] H; cbn in *;
    try reflexivity; try lia.
  rewrite bxor_cancel, IH; [reflexivity|lia].
Qed.


(** ** GCM: decryption inverts encryption *)

Section GcmFacts.

Variable E : list byte -> list byte.
Hypothesis E_length : forall b, length (E b) = 16%nat.

Lemma keystream_length (n : nat) (cb : list byte) :
  length (GCM.keystream E n cb) = (16 * n)%nat.
Proof.
  revert cb. induction n as [|n IH]; intros cb; cbn [GCM.keystream].
  - reflexivity.
  - rewrite length_app, E_length, IH. lia.
Qed.

Lemma keystream_covers (n : nat) (cb : list byte) :
  (n <= length (GCM.keystream E (Nat.div (n + 15) 16) cb))%nat.
Proof.
  rewrite keystream_length.
  pose proof (Nat.div_mod_eq (n + 15) 16).
  pose proof (Nat.mod_upper_bound (n + 15) 16). lia.
Qed.

Lemma gctr_length (icb data : list byte) :
  length (GCM.gctr E icb data) = length data.
Proof.
  unfold GCM.gctr. rewrite xor_bytes_length.
  pose proof (keystream_covers (length data) icb). lia.
Qed.

Lemma gctr_involutive (icb data : list byte) :
  GCM.gctr E icb (GCM.gctr E icb data) = data.
Proof.
  unfold GCM.gctr at 1. rewrite gctr_length.
  unfold GCM.gctr. apply xor_bytes_cancel, keystream_covers.
Qed.

Lemma be_bytes_length (len : nat) (n : N) : length (be_bytes len n) = len.
Proof.
  revert n. induction len as [|len IH]; intros n; cbn [be_bytes].
  - reflexivity.
  - rewrite length_app, IH. cbn. lia.
Qed.

Lemma tag_length (iv aad c : list byte) :
  length (GCM.tag E iv aad c) = 16%nat.
Proof.
  unfold GCM.tag. now rewrite xor_bytes_length, E_length, be_bytes_length.
Qed.

Lemma byte_list_eqb_refl (a : list byte) : GCM.byte_list_eqb a a = true.
Proof.
  unfold GCM.byte_list_eqb.
  destruct (list_eq_dec Byte.byte_eq_dec a a); congruence.
Qed.

Lemma byte_list_eqb_eq (a b : list byte) :
  GCM.byte_list_eqb a b = true <-> a = b.
Proof.
  unfold GCM.byte_list_eqb.
  destruct (list_eq_dec Byte.byte_eq_dec a b); split; congruence.
Qed.

Lemma encrypt_unfold (iv aad p : list byte) :
  GCM.encrypt E iv aad p
  = (GCM.gctr E (GCM.inc32 (GCM.j0 E iv)) p,
     GCM.tag E iv aad (GCM.gctr E (GCM.inc32 (GCM.j0 E iv)) p)).
Proof. reflexivity. Qed.

(** The receiver of [(c, t) = encrypt iv aad p] recovers [p]. *)
Lemma gcm_decrypt_encrypt (iv aad p : list byte) :
  GCM.decrypt E iv aad (GCM.gctr E (GCM.inc32 (GCM.j0 E iv)) p)
    (GCM.tag E iv aad (GCM.gctr E (GCM.inc32 (GCM.j0 E iv)) p)) = Some p.
Proof.
  unfold GCM.decrypt.
  rewrite tag_length, firstn_all2 by (rewrite tag_length; lia).
  now rewrite byte_list_eqb_refl, gctr_involutive.
Qed.

(** A full-length tag is accepted exactly when it is the recomputed one. *)
Lemma gcm_decrypt_accepts (iv aad c t : list byte) :
  length t = 16%nat ->
  (GCM.decrypt E iv aad c t <> None <-> t = GCM.tag E iv aad c).
Proof.
  intros Ht. unfold GCM.decrypt. rewrite Ht.
  rewrite firstn_all2 by (rewrite tag_length; lia).
  destruct (GCM.byte_list_eqb (GCM.tag E iv aad c) t) eqn:Q.
  - apply byte_list_eqb_eq in Q. split; [auto|discriminate].
  - split; [congruence|]. intros ->.
    now rewrite byte_list_eqb_refl in Q.
Qed.

End GcmFacts.

(** ** The block cipher *)

Lemma bytes_of_state_length (s : AES.state) :
  length (AES.bytes_of_state s) = 16%nat.
Proof.
  destruct s as [[[[[[a0 a1] a2] a3] [[[b0 b1] b2] b3]]
                    [[[c0 c1] c2] c3]] [[[d0 d1] d2] d3]].
  reflexivity.
Qed.

Lemma aes256_length (key block : list byte) :
  length (aes256 key block) = 16%nat.
Proof. apply bytes_of_state_length. Qed.

(** ** crypto.ts: encrypt and decrypt *)

Lemma randomBytes_length (n : nat) (rng : entropy) :
  length (fst (randomBytes n rng)) = n.
Proof. cbn. now rewrite length_map, length_seq. Qed.

Lemma Ok_inj (A : Type) (x y : A) : Ok x = Ok y -> x = y.
Proof. intros H. now injection H. Qed.

Lemma Some_inj (A : Type) (x y : A) : Some x = Some y -> x = y.
Proof. intros H. now injection H. Qed.

(** What [encrypt] returns under a valid key. *)
Lemma encrypt_bytes_valid (p : list byte) (key : jsstring) (rng : entropy) :
  valid_key key ->
  encrypt_bytes p key rng =
  (Ok {| iv := Some (Base64.encode (drawn_nonce rng));
         tag := Some (Base64.encode
                        (GCM.tag (aes256 (Base64.decode key))
                           (drawn_nonce rng) []
                           (GCM.gctr (aes256 (Base64.decode key))
                              (GCM.inc32 (GCM.j0 (aes256 (Base64.decode key))
                                            (drawn_nonce rng))) p)));
         data := Some (Base64.encode
                         (GCM.gctr (aes256 (Base64.decode key))
                            (GCM.inc32 (GCM.j0 (aes256 (Base64.decode key))
                                          (drawn_nonce rng))) p)) |},
   snd (randomBytes IV_BYTES rng)).
Proof.
  unfold valid_key, encrypt_bytes, drawn_nonce. intros ->.
  rewrite Nat.eqb_refl. cbn [negb].
  rewrite (surjective_pairing (randomBytes IV_BYTES rng)).
  rewrite encrypt_unfold. cbn [fst snd]. reflexivity.
Qed.

(** What [decrypt] does under a valid key with the three fields present:
    it works on the bytes that the lenient base64 decoding gives. *)
Lemma decrypt_bytes_valid (i t d key : jsstring) :
  valid_key key ->
  decrypt_bytes {| iv := Some i; tag := Some t; data := Some d |} key =
  if Nat.eqb (length (Base64.decode i)) 0
     || Nat.ltb MAX_IV_BYTES (length (Base64.decode i))
  then Err CryptoError_InvalidIV
  else if negb (GCM.valid_tag_length (length (Base64.decode t)))
  then Err (CryptoError_InvalidAuthTag (length (Base64.decode t)))
  else match GCM.decrypt (aes256 (Base64.decode key)) (Base64.decode i) []
                 (Base64.decode d) (Base64.decode t) with
       | Some decrypted => Ok decrypted
       | None => Err CryptoError_AuthFailed
       end.
Proof.
  unfold valid_key, decrypt_bytes. intros ->.
  rewrite Nat.eqb_refl. reflexivity.
Qed.

Lemma drawn_nonce_length (rng : entropy) : length (drawn_nonce rng) = 12%nat.
Proof. apply randomBytes_length. Qed.

(** The lengths of iv that [createDecipheriv] accepts. *)
Lemma iv_accepted (n : nat) :
  n <> 0%nat -> (n <= MAX_IV_BYTES)%nat ->
  Nat.eqb n 0 || Nat.ltb MAX_IV_BYTES n = false.
Proof.
  intros Z B. apply orb_false_iff. split.
  - now apply Nat.eqb_neq.
  - apply Nat.ltb_ge. exact B.
Qed.

Lemma decrypt_encrypt_bytes (p : list byte) (key : jsstring) (rng : entropy) :
  valid_key key ->
  exists envelope,
    fst (encrypt_bytes p key rng) = Ok envelope /\
    decrypt_bytes envelope key = Ok p.
Proof.
  intros V. rewrite encrypt_bytes_valid by assumption.
  eexists. split; [reflexivity|].
  rewrite decrypt_bytes_valid by assumption.
  rewrite !decode_encode, drawn_nonce_length.
  rewrite iv_accepted by (unfold MAX_IV_BYTES; lia).
  rewrite (tag_length (aes256 (Base64.decode key))
             (aes256_length (Base64.decode key))).
  cbn [GCM.valid_tag_length negb].
  now rewrite (gcm_decrypt_encrypt (aes256 (Base64.decode key))
                 (aes256_length (Base64.decode key))).
Qed.

(** C3. Round trip.  Under a valid 32-byte key, decoding the envelope
    that encoding produced gives back the plaintext: for every byte
    sequence [p] on the bytes the cipher works on, and for every string
    [s] through the UTF-8 conversion of [encrypt] and [decrypt], which
    returns [s] with its unpaired surrogates replaced by U+FFFD (the same
    bytes, and [s] itself when it is well formed). *)
Theorem round_trip (key : jsstring) (rng : entropy) :
  valid_key key ->
  (forall p : list byte,
     exists envelope,
       fst (encrypt_bytes p key rng) = Ok envelope /\
       decrypt_bytes envelope key = Ok p) /\
  (forall s : jsstring,
     is_jsstring s ->
     exists envelope,
       fst (encrypt s key rng) = Ok envelope /\
       decrypt envelope key = Ok (Utf8.sanitize s) /\
       Utf8.encode (Utf8.sanitize s) = Utf8.encode s /\
       (Utf8.well_formed s -> decrypt envelope key = Ok s)).
Proof.
  intros V. split.
  - intros p. now apply decrypt_encrypt_bytes.
  - intros s W.
    destruct (decrypt_encrypt_bytes (Utf8.encode s) key rng V) as [e [E D]].
    exists e. unfold encrypt, decrypt. rewrite D. cbn [bind].
    rewrite decode_encode_sanitize by assumption.
    repeat split; auto using encode_sanitize.
    intros F. now rewrite F.
Qed.

Lemma round_trip_witness :
  exists envelope,
    fst (encrypt (js "hello") Demo.key Demo.counting) = Ok envelope /\
    decrypt envelope Demo.key = Ok (js "hello").
Proof.
  assert (V : valid_key Demo.key) by (vm_compute; reflexivity).
  assert (W : is_jsstring (js "hello")).
  { repeat constructor. }
  destruct (proj2 (round_trip Demo.key Demo.counting V) (js "hello") W)
    as [e [E [_ [_ D]]]].
  exists e. split; [exact E|]. apply D. reflexivity.
Defined.

(** C5. Key length enforcement.  With a key whose decoded length is not
    32 bytes, [encrypt] and [decrypt] both throw the error whose message
    names the expected length, 32, and the actual length; nothing is
    encrypted or decrypted and no random byte is drawn. *)
Theorem key_length_enforced (key plaintext : jsstring)
    (payload : EncryptedPayload) (rng : entropy) :
  length (Base64.decode key) <> 32%nat ->
  let actual := length (Base64.decode key) in
  let message :=
    js "Invalid encryption key: expected 32 bytes (256-bit), got "
      ++ decimal (N.of_nat actual) in
  encrypt plaintext key rng = (Err (Error message), rng) /\
  decrypt payload key = Err (Error message).
Proof.
  intros H actual message.
  apply Nat.eqb_neq in H.
  unfold encrypt, encrypt_bytes, decrypt, decrypt_bytes.
  rewrite H. split; reflexivity.
Qed.

Lemma key_length_enforced_witness :
  encrypt (js "test") (js "AAAAAAAAAAAAAAAAAAAAAA==") Demo.counting
  = (Err (Error (js "Invalid encryption key: expected 32 bytes (256-bit), got 16")),
     Demo.counting) /\
  decrypt {| iv := None; tag := None; data := None |}
    (js "AAAAAAAAAAAAAAAAAAAAAA==")
  = Err (Error (js "Invalid encryption key: expected 32 bytes (256-bit), got 16")).
Proof.
  apply (@key_length_enforced (js "AAAAAAAAAAAAAAAAAAAAAA==") (js "test")
           {| iv := None; tag := None; data := None |} Demo.counting).
  vm_compute. discriminate.
Defined.

(** ** Malformed envelopes *)








(** ** client.ts: the base URL *)

Lemma drop_slashes_repeat (n : nat) (r : jsstring) :
  drop_slashes (repeat slash n ++ r) = drop_slashes r.
Proof. induction n as [|n IH]; [reflexivity|exact IH]. Qed.

Lemma rev_repeat (A : Type) (x : A) (n : nat) : rev (repeat x n) = repeat x n.
Proof.
  induction n as [|n IH]; [reflexivity|].
  cbn [repeat rev]. rewrite IH. symmetry. apply repeat_cons.
Qed.

Lemma strip_trailing_slashes_repeat (s : jsstring) (n : nat) :
  strip_trailing_slashes (s ++ repeat slash n) = strip_trailing_slashes s.
Proof.
  unfold strip_trailing_slashes.
  now rewrite rev_app_distr, rev_repeat, drop_slashes_repeat.
Qed.

Lemma drop_slashes_head (r r' : jsstring) (c : N) :
  drop_slashes r = c :: r' -> c <> slash.
Proof.
  induction r as [|x r IH]; cbn [drop_slashes]; [discriminate|].
  destruct (N.eqb_spec x slash) as [E|E]; [exact IH|].
  intros H. injection H as -> _. exact E.
Qed.

Lemma strip_trailing_slashes_last (s t : jsstring) :
  strip_trailing_slashes s <> t ++ [slash].
Proof.
  unfold strip_trailing_slashes. intros H.
  apply (f_equal (@rev N)) in H.
  rewrite rev_involutive, rev_app_distr in H. cbn [rev app] in H.
  now apply drop_slashes_head in H.
Qed.

Lemma drop_slashes_decompose (r : jsstring) :
  exists n, r = repeat slash n ++ drop_slashes r.
Proof.
  induction r as [|x r [n IH]]; [now exists 0%nat|].
  cbn [drop_slashes]. destruct (N.eqb_spec x slash) as [->|E].
  - exists (S n). cbn [repeat app]. now rewrite <- IH.
  - now exists 0%nat.
Qed.

(** C9. The constructor strips every trailing slash of the configured
    base URL and nothing else: the configured URL is the normalized base
    URL followed by slashes only, and the normalized base URL does not end
    in a slash.  The URL of a call is that normalized base URL followed by
    the path, so the path's own leading slash is never doubled, and two
    clients whose base URLs differ only in the number of trailing slashes
    call the same URL. *)
Theorem url_is_normalized_base_and_path
    (JSON_stringify : json -> jsstring) (options : SafeChatOptions.t)
    (c : SafeChat) (method path : jsstring) (b : option json)
    (rng rng' : entropy) (req : Request) :
  constructor options = Ok c ->
  build_request JSON_stringify c method path b rng = (Ok req, rng') ->
  let configured := nullish (SafeChatOptions.baseUrl options) DEFAULT_BASE_URL in
  baseUrl c = strip_trailing_slashes configured /\
  (exists n, configured = baseUrl c ++ repeat slash n) /\
  (forall t, baseUrl c <> t ++ [slash]) /\
  url req = baseUrl c ++ path /\
  url req = strip_trailing_slashes configured ++ path /\
  (forall t, strip_trailing_slashes configured <> t ++ [slash]) /\
  (forall (core : jsstring) (n m : nat) (options' : SafeChatOptions.t)
          (c' : SafeChat) (req' : Request) (rng'' : entropy),
     SafeChatOptions.baseUrl options = Some (core ++ repeat slash n) ->
     SafeChatOptions.baseUrl options' = Some (core ++ repeat slash m) ->
     constructor options' = Ok c' ->
     build_request JSON_stringify c' method path b rng = (Ok req', rng'') ->
     url req' = url req).
Proof.
  intros C B configured.
  assert (U : forall c0 r0 g0,
            build_request JSON_stringify c0 method path b rng = (Ok r0, g0) ->
            url r0 = baseUrl c0 ++ path).
  { intros c0 r0 g0. unfold build_request.
    destruct b as [v|]; [|intros [= <- _]; reflexivity].
    destruct (truthy_string (encryptionKey c0)) as [k|];
      [|intros [= <- _]; reflexivity].
    destruct (encrypt (JSON_stringify v) k rng) as [[e|e] g];
      [intros [= <- _]; reflexivity|discriminate]. }
  assert (N : forall o c0, constructor o = Ok c0 ->
            baseUrl c0 = strip_trailing_slashes
                           (nullish (SafeChatOptions.baseUrl o) DEFAULT_BASE_URL)).
  { intros o c0. unfold constructor.
    destruct (truthy_string (SafeChatOptions.apiKey o));
      [intros [= <-]; reflexivity|discriminate]. }
  split; [now apply N|].
  split.
  { rewrite (N _ _ C). unfold strip_trailing_slashes.
    destruct (drop_slashes_decompose (rev configured)) as [n D].
    exists n. apply (f_equal (@rev _)) in D.
    rewrite rev_involutive, rev_app_distr, rev_repeat in D. exact D. }
  split; [rewrite (N _ _ C); apply strip_trailing_slashes_last|].
  split; [exact (U _ _ _ B)|].
  split; [rewrite (U _ _ _ B); now rewrite (N _ _ C)|].
  split; [apply strip_trailing_slashes_last|].
  intros core n m options' c' req' rng'' O O' C' B'.
  rewrite (U _ _ _ B), (U _ _ _ B'), (N _ _ C), (N _ _ C'), O, O'.
  cbn [nullish]. now rewrite !strip_trailing_slashes_repeat.
Qed.

Lemma url_is_normalized_base_and_path_witness :
  exists c req,
    constructor {| SafeChatOptions.apiKey := Some (js "sc_test_123");
                   SafeChatOptions.encryptionKey := None;
                   SafeChatOptions.baseUrl := Some (js "http://localhost:8080///");
                   SafeChatOptions.timeout := None |} = Ok c /\
    build_request Demo.stringify c (js "GET") (js "/v1/usage") None
      Demo.counting = (Ok req, Demo.counting) /\
    url req = js "http://localhost:8080/v1/usage".
Proof.
  eexists. eexists. split; [reflexivity|]. split; [reflexivity|].
  refine (proj1 (proj2 (proj2 (proj2 (proj2
           (@url_is_normalized_base_and_path Demo.stringify
            {| SafeChatOptions.apiKey := Some (js "sc_test_123");
               SafeChatOptions.encryptionKey := None;
               SafeChatOptions.baseUrl := Some (js "http://localhost:8080///");
               SafeChatOptions.timeout := None |}
            _ (js "GET") (js "/v1/usage") None Demo.counting Demo.counting
            _ eq_refl eq_refl)))))).
Defined.

(** ** client.ts: the outbound call *)

Lemma key_configured_spec (c : SafeChat) :
  (key_configured c = true <->
   exists key, truthy_string (encryptionKey c) = Some key) /\
  (key_configured c = false <-> truthy_string (encryptionKey c) = None).
Proof.
  unfold key_configured.
  destruct (truthy_string (encryptionKey c)) as [k|]; repeat split;
    try discriminate; try reflexivity; eauto.
  intros [k' H]. discriminate.
Qed.



(** ** client.ts: the response *)

(** C1 (as amended).  When no encryption key is configured, a successful
    response is read as plain JSON whether or not its Signal is set: the
    call returns the parsed body, and fails only with the syntax error of
    a body that is not JSON. *)
Theorem keyless_client_ignores_signal
    (JSON_parse : jsstring -> option json) (c : SafeChat) (res : Response) :
  key_configured c = false ->
  ok res = true ->
  read_response JSON_parse c res = parsed (json_body res).
Proof.
  intros K O. apply (key_configured_spec c) in K.
  unfold read_response. rewrite O, K. cbn [negb].
  now destruct (header res (js "x-encrypted")) as [v|];
    [destruct (jsstring_eqb v (js "true"))|].
Qed.

Lemma keyless_client_ignores_signal_witness :
  read_response Demo.parse Demo.plain_client
    (Demo.response 200 (Some (js "true"))
       (Some (JObject [(js "safe", JBool true)])))
  = Ok (JObject [(js "safe", JBool true)]).
Proof.
  apply (@keyless_client_ignores_signal Demo.parse Demo.plain_client
           (Demo.response 200 (Some (js "true"))
              (Some (JObject [(js "safe", JBool true)]))));
    reflexivity.
Defined.

(** C1 (as stated) fails.  The response below is successful and carries
    the Signal, the client has no key, and the call returns the envelope
    itself, parsed as plain JSON. *)
Lemma unexpected_encryption_not_raised :
  ok Demo.flagged_response = true /\
  response_signal Demo.flagged_response = true /\
  key_configured Demo.plain_client = false /\
  get Demo.stringify Demo.parse Demo.plain_client (js "/v1/usage")
    Demo.counting (fun _ => Responded Demo.flagged_response)
  = (Ok Demo.envelope, Demo.counting).
Proof. repeat split. Qed.



(** C7 fails on a [null] body.  A response with status 500 whose body is
    the JSON text [null] does not give a [SafeChatError]: reading
    [errorBody.error] throws a TypeError. *)
Lemma null_error_body_throws_TypeError :
  ok Demo.null_failure = false /\
  json_body Demo.null_failure = Some JNull /\
  get Demo.stringify Demo.parse Demo.plain_client (js "/v1/usage")
    Demo.counting (fun _ => Responded Demo.null_failure)
  = (Err TypeError, Demo.counting).
Proof. repeat split. Qed.

(** ** client.ts: a malformed encryption key *)

Lemma truthy_string_nonempty (key : jsstring) :
  key <> [] -> truthy_string (Some key) = Some key.
Proof. now destruct key. Qed.

(** C10. The constructor rejects only a missing or empty [apiKey]; it
    stores the encryption key as given, whatever its length.  A key of
    invalid length raises its error only where [encrypt] or [decrypt]
    runs: on a call with a body (before anything is sent) and on a
    successful response that carries the Signal.  A call without a body
    whose response does not carry the Signal succeeds like on a client
    without a key. *)
Theorem malformed_key_surfaces_late
    (JSON_stringify : json -> jsstring) (JSON_parse : jsstring -> option json) :
  (forall options : SafeChatOptions.t,
     match truthy_string (SafeChatOptions.apiKey options) with
     | None => constructor options = Err (Error (js "apiKey is required"))
     | Some _ =>
         exists c, constructor options = Ok c /\
                   encryptionKey c = SafeChatOptions.encryptionKey options
     end) /\
  (forall (c : SafeChat) (key method path : jsstring) (rng : entropy)
          (fetch : Request -> FetchOutcome),
     encryptionKey c = Some key -> key <> [] -> ~ valid_key key ->
     let invalid :=
       Error (invalid_key_message (length (Base64.decode key))) in
     (forall b : json,
        request JSON_stringify JSON_parse c method path (Some b) rng fetch
        = (Err invalid, rng)) /\
     (forall (res : Response) (v : json),
        (forall req, fetch req = Responded res) ->
        ok res = true -> json_body res = Some v ->
        request JSON_stringify JSON_parse c method path None rng fetch
        = (if response_signal res then Err invalid else Ok v, rng))).
Proof.
  split.
  - intros options. unfold constructor.
    destruct (truthy_string (SafeChatOptions.apiKey options));
      [eexists; split; reflexivity|reflexivity].
  - intros c key method path rng fetch K NE IV invalid.
    assert (L : Nat.eqb (length (Base64.decode key)) 32 = false).
    { apply Nat.eqb_neq. exact IV. }
    split.
    + intros b. unfold request, build_request.
      rewrite K, (truthy_string_nonempty key NE).
      unfold encrypt, encrypt_bytes. rewrite L. reflexivity.
    + intros res v F O J. unfold request, build_request.
      rewrite F. unfold read_response, response_signal.
      rewrite O, K, (truthy_string_nonempty key NE), J. cbn [negb parsed bind].
      destruct (header res (js "x-encrypted")) as [h|]; [|reflexivity].
      destruct (jsstring_eqb h (js "true")); [|reflexivity].
      unfold decrypt, decrypt_bytes. rewrite L. reflexivity.
Qed.

Lemma malformed_key_surfaces_late_witness :
  get Demo.stringify Demo.parse Demo.misconfigured_client (js "/v1/usage")
    Demo.counting
    (fun _ => Responded (Demo.response 200 None
                           (Some (JObject [(js "safe", JBool true)]))))
  = (Ok (JObject [(js "safe", JBool true)]), Demo.counting) /\
  post Demo.stringify Demo.parse Demo.misconfigured_client (js "/v1/scan")
    (JObject [(js "text", JString (js "hello"))]) Demo.counting
    (fun _ => Responded (Demo.response 200 None
                           (Some (JObject [(js "safe", JBool true)]))))
  = (Err (Error (js "Invalid encryption key: expected 32 bytes (256-bit), got 16")),
     Demo.counting).
Proof.
  assert (NE : Demo.short_key <> []) by discriminate.
  assert (IV : ~ valid_key Demo.short_key) by (vm_compute; discriminate).
  split.
  - exact (proj2 (proj2 (malformed_key_surfaces_late Demo.stringify Demo.parse)
                    Demo.misconfigured_client Demo.short_key (js "GET")
                    (js "/v1/usage") Demo.counting _ eq_refl NE IV)
             (Demo.response 200 None
                (Some (JObject [(js "safe", JBool true)])))
             (JObject [(js "safe", JBool true)])
             (fun _ => eq_refl) eq_refl eq_refl).
  - exact (proj1 (proj2 (malformed_key_surfaces_late Demo.stringify Demo.parse)
                    Demo.misconfigured_client Demo.short_key (js "POST")
                    (js "/v1/scan") Demo.counting _ eq_refl NE IV)
             (JObject [(js "text", JString (js "hello"))])).
Defined.

(** ** AES: the cipher is injective *)

Lemma b2n_bxor (a b : byte) : b2n (bxor a b) = N.lxor (b2n a) (b2n b).
Proof.
  apply N.eqb_eq. revert b. apply forallb_bytes. revert a. apply forallb_bytes.
  vm_compute. reflexivity.
Qed.

(** Equations between XOR combinations of bytes, up to associativity,
    commutativity and cancellation. *)
Ltac xor_ac :=
  apply b2n_inj; rewrite ?b2n_bxor; apply N.bits_inj; intro;
  rewrite ?N.lxor_spec; btauto.

Lemma bxor_0_r (a : byte) : bxor a x00 = a.
Proof.
  apply b2n_inj. rewrite b2n_bxor. change (b2n x00) with 0.
  apply N.lxor_0_r.
Qed.

Lemma bxor_0_l (a : byte) : bxor x00 a = a.
Proof. rewrite bxor_comm. apply bxor_0_r. Qed.

Section AesFacts.

Import AES.

Lemma xtime_linear (a b : byte) : xtime (bxor a b) = bxor (xtime a) (xtime b).
Proof.
  apply Byte.byte_dec_bl. revert b. apply forallb_bytes.
  revert a. apply forallb_bytes. vm_compute. reflexivity.
Qed.

Lemma gmul_loop_linear (n : nat) (a a' k acc acc' : byte) :
  gmul_loop n (bxor a a') k (bxor acc acc')
  = bxor (gmul_loop n a k acc) (gmul_loop n a' k acc').
Proof.
  revert a a' k acc acc'.
  induction n as [|n IH]; intros a a' k acc acc'; cbn [gmul_loop].
  - reflexivity.
  - rewrite xtime_linear.
    destruct (N.odd (b2n k)); [|apply IH].
    replace (bxor (bxor acc acc') (bxor a a'))
      with (bxor (bxor acc a) (bxor acc' a')) by xor_ac.
    apply IH.
Qed.

(** Multiplication by a constant is linear. *)
Lemma gmul_linear (a b k : byte) :
  gmul (bxor a b) k = bxor (gmul a k) (gmul b k).
Proof.
  unfold gmul. rewrite <- gmul_loop_linear. now rewrite bxor_0_r.
Qed.

Lemma gmul_0_l (k : byte) : gmul x00 k = x00.
Proof.
  apply Byte.byte_dec_bl. revert k. apply forallb_bytes.
  vm_compute. reflexivity.
Qed.

Lemma col_ext (a0 a1 a2 a3 b0 b1 b2 b3 : byte) :
  a0 = b0 -> a1 = b1 -> a2 = b2 -> a3 = b3 ->
  (a0, a1, a2, a3) = (b0, b1, b2, b3).
Proof. congruence. Qed.

Lemma xor_col_assoc_comm (a b c d : col) :
  xor_col (xor_col a b) (xor_col c d) = xor_col (xor_col a c) (xor_col b d).
Proof.
  destruct a as [[[a0 a1] a2] a3], b as [[[b0 b1] b2] b3],
           c as [[[c0 c1] c2] c3], d as [[[d0 d1] d2] d3].
  cbn [xor_col]. apply col_ext; xor_ac.
Qed.

Lemma mix_column_linear (a b : col) :
  mix_column (xor_col a b) = xor_col (mix_column a) (mix_column b).
Proof.
  destruct a as [[[a0 a1] a2] a3], b as [[[b0 b1] b2] b3].
  cbn [xor_col mix_column]. unfold mul3, mul2.
  rewrite !xtime_linear. apply col_ext; xor_ac.
Qed.

Lemma inv_mix_column_linear (a b : col) :
  inv_mix_column (xor_col a b)
  = xor_col (inv_mix_column a) (inv_mix_column b).
Proof.
  destruct a as [[[a0 a1] a2] a3], b as [[[b0 b1] b2] b3].
  cbn [xor_col inv_mix_column]. unfold mul9, mul11, mul13, mul14.
  rewrite !gmul_linear. apply col_ext; xor_ac.
Qed.

Lemma col_eqb_eq (a b : col) : col_eqb a b = true -> a = b.
Proof.
  destruct a as [[[a0 a1] a2] a3], b as [[[b0 b1] b2] b3].
  cbn [col_eqb]. rewrite !andb_true_iff.
  intros [[[H0 H1] H2] H3].
  apply Byte.byte_dec_bl in H0, H1, H2, H3. now subst.
Qed.

(** On a column with a single non-zero byte. *)
Lemma inv_mix_column_unit (a : byte) :
  inv_mix_column (mix_column (a, x00, x00, x00)) = (a, x00, x00, x00) /\
  inv_mix_column (mix_column (x00, a, x00, x00)) = (x00, a, x00, x00) /\
  inv_mix_column (mix_column (x00, x00, a, x00)) = (x00, x00, a, x00) /\
  inv_mix_column (mix_column (x00, x00, x00, a)) = (x00, x00, x00, a).
Proof.
  repeat split; apply col_eqb_eq; revert a; apply forallb_bytes;
    vm_compute; reflexivity.
Qed.

Lemma inv_mix_column_mix_column (a : col) :
  inv_mix_column (mix_column a) = a.
Proof.
  destruct a as [[[a0 a1] a2] a3].
  replace (a0, a1, a2, a3)
    with (xor_col (xor_col (a0, x00, x00, x00) (x00, a1, x00, x00))
                  (xor_col (x00, x00, a2, x00) (x00, x00, x00, a3))) at 1.
  - rewrite !mix_column_linear, !inv_mix_column_linear.
    destruct (inv_mix_column_unit a0) as [-> _].
    destruct (inv_mix_column_unit a1) as [_ [-> _]].
    destruct (inv_mix_column_unit a2) as [_ [_ [-> _]]].
    destruct (inv_mix_column_unit a3) as [_ [_ [_ ->]]].
    cbn [xor_col]. now rewrite ?bxor_0_r, ?bxor_0_l.
  - cbn [xor_col]. now rewrite ?bxor_0_r, ?bxor_0_l.
Qed.

Lemma inv_sbox_sbox (a : byte) : inv_sbox (sbox a) = a.
Proof.
  apply Byte.byte_dec_bl. revert a. apply forallb_bytes.
  vm_compute. reflexivity.
Qed.

Lemma sbox_inj (a b : byte) : sbox a = sbox b -> a = b.
Proof.
  intros H. rewrite <- (inv_sbox_sbox a), <- (inv_sbox_sbox b).
  now rewrite H.
Qed.

Lemma mix_column_inj (a b : col) : mix_column a = mix_column b -> a = b.
Proof.
  intros H. rewrite <- (inv_mix_column_mix_column a),
              <- (inv_mix_column_mix_column b).
  now rewrite H.
Qed.

Lemma xor_col_inj (a b k : col) : xor_col a k = xor_col b k -> a = b.
Proof.
  destruct a as [[[a0 a1] a2] a3], b as [[[b0 b1] b2] b3],
           k as [[[k0 k1] k2] k3].
  cbn [xor_col]. intros [= H0 H1 H2 H3].
  apply bxor_inj_l in H0, H1, H2, H3. now subst.
Qed.

Lemma map_col_sbox_inj (a b : col) :
  map_col sbox a = map_col sbox b -> a = b.
Proof.
  destruct a as [[[a0 a1] a2] a3], b as [[[b0 b1] b2] b3].
  cbn [map_col]. intros [= H0 H1 H2 H3].
  apply sbox_inj in H0, H1, H2, H3. now subst.
Qed.

Lemma sub_bytes_inj (s t : state) : sub_bytes s = sub_bytes t -> s = t.
Proof.
  destruct s as [[[s0 s1] s2] s3], t as [[[t0 t1] t2] t3].
  cbn [sub_bytes]. intros [= H0 H1 H2 H3].
  apply map_col_sbox_inj in H0, H1, H2, H3. now subst.
Qed.

Lemma shift_rows_inj (s t : state) : shift_rows s = shift_rows t -> s = t.
Proof.
  destruct s as [[[[[[a0 a1] a2] a3] [[[b0 b1] b2] b3]]
                    [[[c0 c1] c2] c3]] [[[d0 d1] d2] d3]].
  destruct t as [[[[[[a0' a1'] a2'] a3'] [[[b0' b1'] b2'] b3']]
                    [[[c0' c1'] c2'] c3']] [[[d0' d1'] d2'] d3']].
  cbn [shift_rows]. intros H. injection H as . now subst.
Qed.

Lemma mix_columns_inj (s t : state) : mix_columns s = mix_columns t -> s = t.
Proof.
  destruct s as [[[s0 s1] s2] s3], t as [[[t0 t1] t2] t3].
  cbn [mix_columns]. intros [= H0 H1 H2 H3].
  apply mix_column_inj in H0, H1, H2, H3. now subst.
Qed.

Lemma add_round_key_inj (s t k : state) :
  add_round_key s k = add_round_key t k -> s = t.
Proof.
  destruct s as [[[s0 s1] s2] s3], t as [[[t0 t1] t2] t3],
           k as [[[k0 k1] k2] k3].
  cbn [add_round_key]. intros [= H0 H1 H2 H3].
  apply xor_col_inj in H0, H1, H2, H3. now subst.
Qed.

Lemma rounds_inj (rks : list state) (s t : state) :
  rounds rks s = rounds rks t -> s = t.
Proof.
  revert s t. induction rks as [|rk rest IH]; intros s t H.
  - exact H.
  - destruct rest as [|rk' rest'].
    + cbn [rounds] in H.
      now apply add_round_key_inj, shift_rows_inj, sub_bytes_inj in H.
    + change (rounds (rk' :: rest')
                (add_round_key (mix_columns (shift_rows (sub_bytes s))) rk)
              = rounds (rk' :: rest')
                  (add_round_key (mix_columns (shift_rows (sub_bytes t))) rk))
        in H.
      apply IH in H.
      now apply add_round_key_inj, mix_columns_inj, shift_rows_inj,
        sub_bytes_inj in H.
Qed.

Lemma cipher_inj (rks : list state) (s t : state) :
  cipher rks s = cipher rks t -> s = t.
Proof.
  destruct rks as [|rk0 rest]; cbn [cipher]; [auto|].
  intros H. now apply rounds_inj, add_round_key_inj in H.
Qed.

Lemma bytes_of_state_inj (s t : state) :
  bytes_of_state s = bytes_of_state t -> s = t.
Proof.
  destruct s as [[[[[[a0 a1] a2] a3] [[[b0 b1] b2] b3]]
                    [[[c0 c1] c2] c3]] [[[d0 d1] d2] d3]].
  destruct t as [[[[[[a0' a1'] a2'] a3'] [[[b0' b1'] b2'] b3']]
                    [[[c0' c1'] c2'] c3']] [[[d0' d1'] d2'] d3']].
  cbn. intros H. injection H as . now subst.
Qed.

Lemma state_of_bytes_inj (a b : list byte) :
  length a = 16%nat -> length b = 16%nat ->
  state_of_bytes a = state_of_bytes b -> a = b.
Proof.
  intros La Lb.
  do 17 (destruct a as [|? a]; try discriminate La).
  do 17 (destruct b as [|? b]; try discriminate Lb).
  cbn. intros H. injection H as . now subst.
Qed.

(** A block cipher is a permutation: under any expanded key, different
    blocks have different encryptions. *)
Lemma encrypt_block_inj (rks : list state) (a b : list byte) :
  length a = 16%nat -> length b = 16%nat ->
  encrypt_block rks a = encrypt_block rks b -> a = b.
Proof.
  intros La Lb H. unfold encrypt_block in H.
  apply bytes_of_state_inj, cipher_inj in H.
  now apply state_of_bytes_inj.
Qed.

End AesFacts.

(** ** GCM: what a different nonce changes *)

Lemma xor_bytes_inj_r (p k k' : list byte) :
  length k = length k' -> (length k <= length p)%nat ->
  xor_bytes p k = xor_bytes p k' -> k = k'.
Proof.
  revert k k'. induction p as [|x p IH]; intros [|y k] [|y' k'] L B H;
    cbn in *; try reflexivity; try discriminate; try lia.
  injection H as H1 H2. apply bxor_inj_r in H1. subst y'.
  f_equal. apply IH; auto; lia.
Qed.

Lemma xor_bytes_app_firstn (p k1 k2 : list byte) :
  firstn (length k1) (xor_bytes p (k1 ++ k2)) = xor_bytes p k1.
Proof.
  revert p. induction k1 as [|y k1 IH]; intros [|x p]; cbn; try reflexivity.
  now rewrite IH.
Qed.

Lemma app_eq_prefix (A : Type) (a b x y : list A) :
  length a = length b -> a ++ x = b ++ y -> a = b.
Proof.
  revert b. induction a as [|u a IH]; intros [|v b] L H; cbn in *;
    try reflexivity; try discriminate.
  injection H as -> H. f_equal. apply IH; auto.
Qed.

Section GcmNonce.

Variable E : list byte -> list byte.
Hypothesis E_length : forall b, length (E b) = 16%nat.
Hypothesis E_inj :
  forall a b, length a = 16%nat -> length b = 16%nat -> E a = E b -> a = b.

Lemma j0_96 (iv : list byte) :
  length iv = 12%nat -> GCM.j0 E iv = iv ++ [x00; x00; x00; x01].
Proof. intros L. unfold GCM.j0. now rewrite L. Qed.

Lemma inc32_j0_96 (iv : list byte) :
  length iv = 12%nat ->
  GCM.inc32 (GCM.j0 E iv) = iv ++ [x00; x00; x00; x02].
Proof.
  intros L. rewrite j0_96 by assumption. unfold GCM.inc32.
  rewrite firstn_app, L, Nat.sub_diag, firstn_all2 by lia.
  rewrite skipn_app, L, Nat.sub_diag, skipn_all2 by lia.
  cbn [firstn skipn app]. rewrite app_nil_r. reflexivity.
Qed.


(** Under the same key, different 12-byte nonces give different
    ciphertexts to a plaintext of at least one block. *)
Lemma ciphertext_nonce_inj (iv iv' p : list byte) :
  length iv = 12%nat -> length iv' = 12%nat -> (16 <= length p)%nat ->
  GCM.gctr E (GCM.inc32 (GCM.j0 E iv)) p
  = GCM.gctr E (GCM.inc32 (GCM.j0 E iv')) p ->
  iv = iv'.
Proof.
  intros L L' B H. rewrite !inc32_j0_96 in H by assumption.
  unfold GCM.gctr in H.
  destruct (Nat.div (length p + 15) 16) as [|n] eqn:Q.
  { pose proof (Nat.div_mod_eq (length p + 15) 16).
    pose proof (Nat.mod_upper_bound (length p + 15) 16). lia. }
  cbn [GCM.keystream] in H.
  apply (f_equal (firstn 16)) in H.
  assert (F : forall q k1 k2, length k1 = 16%nat ->
            firstn 16 (xor_bytes q (k1 ++ k2)) = xor_bytes q k1).
  { intros q k1 k2 <-. apply xor_bytes_app_firstn. }
  rewrite !F in H by apply E_length.
  apply xor_bytes_inj_r in H; [|now rewrite !E_length ..].
  apply E_inj in H; [|rewrite length_app; cbn; lia ..].
  apply app_eq_prefix in H; [assumption|congruence].
Qed.

End GcmNonce.

Lemma aes256_unfold (key : list byte) :
  aes256 key = AES.encrypt_block (AES.key_expansion key).
Proof. reflexivity. Qed.

Lemma aes256_inj (key a b : list byte) :
  length a = 16%nat -> length b = 16%nat ->
  aes256 key a = aes256 key b -> a = b.
Proof. rewrite aes256_unfold. apply encrypt_block_inj. Qed.

(** ** crypto.ts: authentication *)


Lemma encrypt_valid (plaintext key : jsstring) (rng : entropy)
    (envelope : EncryptedPayload) :
  valid_key key ->
  fst (encrypt plaintext key rng) = Ok envelope ->
  envelope =
  {| iv := Some (Base64.encode (drawn_nonce rng));
     tag := Some (Base64.encode
                    (GCM.tag (aes256 (Base64.decode key))
                       (drawn_nonce rng) []
                       (GCM.gctr (aes256 (Base64.decode key))
                          (GCM.inc32 (GCM.j0 (aes256 (Base64.decode key))
                                        (drawn_nonce rng)))
                          (Utf8.encode plaintext))));
     data := Some (Base64.encode
                     (GCM.gctr (aes256 (Base64.decode key))
                        (GCM.inc32 (GCM.j0 (aes256 (Base64.decode key))
                                      (drawn_nonce rng)))
                        (Utf8.encode plaintext))) |}.
Proof.
  intros V H. unfold encrypt in H.
  rewrite encrypt_bytes_valid in H by assumption.
  cbn [fst] in H. apply Ok_inj in H. now symmetry.
Qed.





(** ** crypto.ts: the nonce *)

(** C8 (as amended).  Under a valid key every call of [encrypt] takes the
    next 12 bytes of the random source, whatever the plaintext and the
    key, and uses them as the nonce of the envelope; the following call
    takes the 12 bytes after them.  Two calls with the same plaintext and
    key whose draws differ produce different nonces, and different
    ciphertexts when the plaintext has at least 16 bytes of UTF-8.  The
    ciphertext of the empty plaintext is empty in every call. *)
Theorem fresh_nonce_per_call (plaintext key : jsstring) (rng : entropy) :
  valid_key key ->
  exists envelope,
    encrypt plaintext key rng = (Ok envelope, fun i => rng (12 + i)%nat) /\
    iv envelope = Some (Base64.encode (map rng (seq 0 12))) /\
    drawn_nonce rng = map rng (seq 0 12) /\
    drawn_nonce (fun i => rng (12 + i)%nat) = map rng (seq 12 12) /\
    (forall (rng2 : entropy) (envelope2 : EncryptedPayload),
       fst (encrypt plaintext key rng2) = Ok envelope2 ->
       drawn_nonce rng2 <> drawn_nonce rng ->
       iv envelope2 <> iv envelope /\
       ((16 <= length (Utf8.encode plaintext))%nat ->
        data envelope2 <> data envelope)) /\
    (plaintext = [] -> data envelope = Some []).
Proof.
  intros V.
  unfold encrypt at 1. rewrite encrypt_bytes_valid by assumption.
  eexists. split; [reflexivity|].
  cbn [iv data].
  split; [reflexivity|]. split; [reflexivity|].
  split; [unfold drawn_nonce; cbn [randomBytes fst IV_BYTES];
          rewrite <- seq_shift, map_map; reflexivity|].
  split.
  - intros rng2 e2 H2 D.
    pose proof (encrypt_valid plaintext key rng2 e2 V H2) as Q2.
    subst e2. cbn [iv data]. split.
    + intros G. apply Some_inj, encode_inj in G. now elim D.
    + intros B G. apply Some_inj, encode_inj in G.
      apply D.
      apply (ciphertext_nonce_inj (aes256 (Base64.decode key))
               (aes256_length (Base64.decode key))
               (aes256_inj (Base64.decode key))
               (drawn_nonce rng2) (drawn_nonce rng) (Utf8.encode plaintext)
               (drawn_nonce_length rng2) (drawn_nonce_length rng) B G).
  - intros ->. reflexivity.
Qed.

Lemma fresh_nonce_per_call_witness :
  exists envelope,
    encrypt (js "hello") Demo.key Demo.counting
    = (Ok envelope, fun i => Demo.counting (12 + i)%nat) /\
    iv envelope = Some (js "AAECAwQFBgcICQoL").
Proof.
  assert (V : valid_key Demo.key) by (vm_compute; reflexivity).
  destruct (fresh_nonce_per_call (js "hello") Demo.key Demo.counting V)
    as [e [Q [I _]]].
  exists e. split; [exact Q|]. rewrite I. vm_compute. reflexivity.
Defined.

(** C8 (as stated) fails.  Two successive calls with the same empty
    plaintext and the same key draw different nonces and produce the same
    (empty) ciphertext. *)
Lemma empty_plaintext_same_ciphertext :
  fst (encrypt [] Demo.key Demo.counting)
  = Ok {| iv := Some (js "AAECAwQFBgcICQoL");
          tag := Some (js "LG4dXKZ7pMQh1Ewgw2QaCg==");
          data := Some [] |} /\
  fst (encrypt [] Demo.key (snd (encrypt [] Demo.key Demo.counting)))
  = Ok {| iv := Some (js "DA0ODxAREhMUFRYX");
          tag := Some (js "1CnJafMiNfsAInhlaBJzoQ==");
          data := Some [] |}.
Proof. split; vm_compute; reflexivity. Qed.

(** ** crypto.ts: the shape of an envelope *)

Lemma base64_encode_length (bs : list byte) :
  length (Base64.encode bs) = (4 * ((length bs + 2) / 3))%nat.
Proof.
  induction bs as [|a|a b|a b c l IH] using list_ind3;
    try reflexivity.
  cbn [Base64.encode length]. rewrite IH.
  replace (S (S (S (length l))) + 2)%nat with (length l + 2 + 1 * 3)%nat
    by lia.
  rewrite Nat.div_add by lia. lia.
Qed.

(** X1. Under a valid key [encrypt] returns an envelope with its three
    fields: a 16-character [iv] that decodes to the 12 bytes drawn from
    the random source, a 24-character [tag] that decodes to 16 bytes, and
    a [data] that decodes to exactly as many bytes as the UTF-8 encoding
    of the plaintext has: nothing is padded. *)
Theorem envelope_shape (plaintext key : jsstring) (rng : entropy) :
  valid_key key ->
  exists i t d,
    fst (encrypt plaintext key rng)
    = Ok {| iv := Some i; tag := Some t; data := Some d |} /\
    Base64.decode i = drawn_nonce rng /\
    length i = 16%nat /\
    length (Base64.decode t) = 16%nat /\
    length t = 24%nat /\
    length (Base64.decode d) = length (Utf8.encode plaintext) /\
    length d = (4 * ((length (Utf8.encode plaintext) + 2) / 3))%nat.
Proof.
  intros V. unfold encrypt. rewrite encrypt_bytes_valid by assumption.
  eexists. eexists. eexists. split; [reflexivity|].
  rewrite !decode_encode, !base64_encode_length.
  rewrite (tag_length (aes256 (Base64.decode key))
             (aes256_length (Base64.decode key))).
  rewrite (gctr_length (aes256 (Base64.decode key))
             (aes256_length (Base64.decode key))).
  rewrite drawn_nonce_length. repeat split.
Qed.

Lemma envelope_shape_witness :
  exists i t d,
    fst (encrypt (js "hello") Demo.key Demo.counting)
    = Ok {| iv := Some i; tag := Some t; data := Some d |} /\
    length i = 16%nat /\ length t = 24%nat /\
    length (Base64.decode d) = 5%nat.
Proof.
  assert (V : valid_key Demo.key) by (vm_compute; reflexivity).
  destruct (envelope_shape (js "hello") Demo.key Demo.counting V)
    as [i [t [d [E [_ [Li [_ [Lt [Ld _]]]]]]]]].
  exists i, t, d. repeat split; assumption.
Defined.



(** ** client.ts: what a call sends *)

Lemma jsstring_eqb_eq (a b : jsstring) : jsstring_eqb a b = true <-> a = b.
Proof.
  unfold jsstring_eqb. destruct (list_eq_dec N.eq_dec a b);
    split; congruence.
Qed.

Lemma jsstring_eqb_refl (a : jsstring) : jsstring_eqb a a = true.
Proof. now apply jsstring_eqb_eq. Qed.

Lemma jsstring_eqb_neq (a b : jsstring) : a <> b -> jsstring_eqb a b = false.
Proof.
  intros H. destruct (jsstring_eqb a b) eqn:E; [|reflexivity].
  apply jsstring_eqb_eq in E. now elim H.
Qed.

(** X3. Every call that reaches [fetch] keeps the method it was given and
    carries the API key of the client in [X-API-Key] and [Accept:
    application/json]; [Content-Type: application/json] is present
    exactly when there is a body; and no header other than these three
    and [X-Encrypted] is ever sent. *)
Theorem headers_of_a_call
    (JSON_stringify : json -> jsstring) (c : SafeChat)
    (m path : jsstring) (b : option json) (rng rng' : entropy)
    (req : Request) :
  build_request JSON_stringify c m path b rng = (Ok req, rng') ->
  method req = m /\
  lookup (js "X-API-Key") (headers req) = Some (apiKey c) /\
  lookup (js "Accept") (headers req) = Some (js "application/json") /\
  lookup (js "Content-Type") (headers req)
  = match b with
    | Some _ => Some (js "application/json")
    | None => None
    end /\
  Forall (fun h => In (fst h) [js "X-API-Key"; js "Accept";
                               js "Content-Type"; js "X-Encrypted"])
    (headers req).
Proof.
  unfold build_request.
  destruct b as [v|].
  - destruct (truthy_string (encryptionKey c)) as [key|].
    + destruct (encrypt (JSON_stringify v) key rng) as [[e|e] g];
        [|discriminate].
      intros [= <- <-]. cbn [headers method].
      repeat split; try reflexivity.
      repeat constructor; cbn; tauto.
    + intros [= <- <-]. cbn [headers method].
      repeat split; try reflexivity.
      repeat constructor; cbn; tauto.
  - intros [= <- <-]. cbn [headers method].
    repeat split; try reflexivity.
    repeat constructor; cbn; tauto.
Qed.

Lemma headers_of_a_call_witness :
  exists req,
    build_request Demo.stringify Demo.plain_client (js "GET") (js "/v1/usage")
      None Demo.counting = (Ok req, Demo.counting) /\
    lookup (js "X-API-Key") (headers req) = Some (js "sc_test_123") /\
    lookup (js "Content-Type") (headers req) = None.
Proof.
  eexists. split; [reflexivity|].
  pose proof (headers_of_a_call Demo.stringify Demo.plain_client (js "GET")
                (js "/v1/usage") None Demo.counting Demo.counting _ eq_refl)
    as [_ [K [_ [T _]]]].
  split; [exact K|exact T].
Defined.

(** The envelope survives the JSON object it is sent as. *)
Lemma payload_json_round_trip (p : EncryptedPayload) :
  as_EncryptedPayload (json_of_payload p) = p.
Proof. destruct p as [[i|] [t|] [d|]]; reflexivity. Qed.

(** X4. With a valid key configured, a call with a body always reaches
    [fetch], and what it sends can be opened by the holder of the key:
    the transmitted text is the serialization of an envelope object from
    which [decrypt] recovers exactly the UTF-8 bytes of the serialized
    body. *)
Theorem outbound_envelope_opens
    (JSON_stringify : json -> jsstring) (c : SafeChat)
    (key m path : jsstring) (b : json) (rng : entropy) :
  truthy_string (encryptionKey c) = Some key ->
  valid_key key ->
  exists req envelope,
    build_request JSON_stringify c m path (Some b) rng
    = (Ok req, snd (randomBytes IV_BYTES rng)) /\
    body req = Some (JSON_stringify (json_of_payload envelope)) /\
    as_EncryptedPayload (json_of_payload envelope) = envelope /\
    decrypt_bytes envelope key = Ok (Utf8.encode (JSON_stringify b)).
Proof.
  intros K V.
  destruct (decrypt_encrypt_bytes (Utf8.encode (JSON_stringify b)) key rng V)
    as [e [E D]].
  unfold build_request. rewrite K. unfold encrypt.
  rewrite encrypt_bytes_valid in * by assumption.
  cbn [fst] in E. apply Ok_inj in E. rewrite E.
  eexists. exists e. split; [reflexivity|]. cbn [body].
  split; [reflexivity|]. split; [apply payload_json_round_trip|exact D].
Qed.

Lemma outbound_envelope_opens_witness :
  exists req envelope,
    build_request Demo.stringify Demo.keyed_client (js "POST") (js "/v1/scan")
      (Some (JObject [(js "text", JString (js "hello"))])) Demo.counting
    = (Ok req, snd (randomBytes IV_BYTES Demo.counting)) /\
    body req = Some (Demo.stringify (json_of_payload envelope)) /\
    decrypt_bytes envelope Demo.key
    = Ok (Utf8.encode
            (Demo.stringify (JObject [(js "text", JString (js "hello"))]))).
Proof.
  assert (V : valid_key Demo.key) by (vm_compute; reflexivity).
  destruct (outbound_envelope_opens Demo.stringify Demo.keyed_client Demo.key
              (js "POST") (js "/v1/scan")
              (JObject [(js "text", JString (js "hello"))]) Demo.counting
              eq_refl V) as [req [e [B [Q [_ D]]]]].
  exists req, e. repeat split; assumption.
Defined.

(** X5. A call draws random bytes only to encrypt a body: the random source
    it leaves behind is advanced by 12 bytes when a body is sent under a
    configured key of valid length, and is untouched otherwise, whatever
    the network and the response do.  Successive encrypted calls thus use
    successive, disjoint draws. *)
Theorem random_bytes_of_a_call
    (JSON_stringify : json -> jsstring) (JSON_parse : jsstring -> option json)
    (c : SafeChat) (m path : jsstring) (b : option json) (rng : entropy)
    (fetch : Request -> FetchOutcome) :
  snd (request JSON_stringify JSON_parse c m path b rng fetch)
  = match b, truthy_string (encryptionKey c) with
    | Some _, Some key =>
        if Nat.eqb (length (Base64.decode key)) 32
        then (fun i => rng (12 + i)%nat)
        else rng
    | _, _ => rng
    end.
Proof.
  unfold request, build_request.
  destruct b as [v|].
  - destruct (truthy_string (encryptionKey c)) as [key|].
    + unfold encrypt, encrypt_bytes.
      destruct (Nat.eqb (length (Base64.decode key)) 32); cbn [negb].
      * rewrite (surjective_pairing (randomBytes IV_BYTES rng)).
        rewrite encrypt_unfold.
        now destruct (fetch _).
      * reflexivity.
    + now destruct (fetch _).
  - destruct (truthy_string (encryptionKey c)); now destruct (fetch _).
Qed.

(** ** client.ts: what a call makes of the answer *)

(** X6. A response that carries the Signal and the envelope that a peer made
    of a text [s] under the configured key is decrypted and parsed: the
    call returns what [JSON.parse] makes of [s] (of [s] with U+FFFD for
    its unpaired surrogates, if it has any). *)
Theorem inbound_envelope_is_opened
    (JSON_parse : jsstring -> option json) (c : SafeChat) (key s : jsstring)
    (peer : entropy) (envelope : EncryptedPayload) (res : Response) :
  truthy_string (encryptionKey c) = Some key ->
  valid_key key ->
  is_jsstring s ->
  fst (encrypt s key peer) = Ok envelope ->
  ok res = true ->
  response_signal res = true ->
  json_body res = Some (json_of_payload envelope) ->
  read_response JSON_parse c res = parsed (JSON_parse (Utf8.sanitize s)).
Proof.
  intros K V W E O S J.
  destruct (decrypt_encrypt_bytes (Utf8.encode s) key peer V) as [e [E' D]].
  unfold encrypt in E. rewrite E in E'. apply Ok_inj in E'. subst e.
  unfold read_response. unfold response_signal in S.
  rewrite O, S, K, J. cbn [negb parsed bind].
  rewrite payload_json_round_trip. unfold decrypt. rewrite D.
  cbn [bind]. now rewrite decode_encode_sanitize.
Qed.

Lemma inbound_envelope_is_opened_witness :
  read_response Demo.parse Demo.keyed_client Demo.flagged_response
  = Ok (JObject [(js "safe", JBool true)]).
Proof.
  assert (V : valid_key Demo.key) by (vm_compute; reflexivity).
  assert (W : is_jsstring (Demo.stringify (JObject [(js "safe", JBool true)])))
    by (repeat constructor).
  assert (E : fst (encrypt (Demo.stringify (JObject [(js "safe", JBool true)]))
                     Demo.key Demo.counting)
              = Ok {| iv := Some (js "AAECAwQFBgcICQoL");
                      tag := Some (js "JUjk1fTgptjAhWsgNr69zQ==");
                      data := Some (js "W3l1PyhyR2IwXSzsBA==") |})
    by (vm_compute; reflexivity).
  exact (inbound_envelope_is_opened Demo.parse Demo.keyed_client Demo.key
           (Demo.stringify (JObject [(js "safe", JBool true)]))
           Demo.counting _ Demo.flagged_response
           eq_refl V W E eq_refl eq_refl eq_refl).
Defined.

(** X7. A response is decrypted only when its [x-encrypted] header is exactly
    ['true']: with any other value, or without the header, a successful
    response is read as plain JSON by every client, with or without a
    key, even when its body looks like an envelope. *)
Theorem unflagged_response_is_plain
    (JSON_parse : jsstring -> option json) (c : SafeChat) (res : Response) :
  ok res = true ->
  header res (js "x-encrypted") <> Some (js "true") ->
  read_response JSON_parse c res = parsed (json_body res).
Proof.
  intros O H. unfold read_response. rewrite O. cbn [negb].
  destruct (header res (js "x-encrypted")) as [v|]; [|reflexivity].
  rewrite jsstring_eqb_neq; [reflexivity|].
  intros ->. now elim H.
Qed.

Lemma unflagged_response_is_plain_witness :
  read_response Demo.parse Demo.keyed_client
    (Demo.response 200 (Some (js "TRUE")) (Some Demo.envelope))
  = Ok Demo.envelope.
Proof.
  apply (unflagged_response_is_plain Demo.parse Demo.keyed_client
           (Demo.response 200 (Some (js "TRUE")) (Some Demo.envelope))).
  - reflexivity.
  - vm_compute. discriminate.
Defined.

(** X8. A failure status is handled before, and instead of, decryption: what
    a call makes of a response that is not ok depends neither on the
    client nor on the Signal, and is never a result.  In particular an
    envelope sent with a failure status is not opened: it becomes the
    body of the [SafeChatError], whose message is then ["HTTP "] and the
    status. *)
Theorem failure_status_precedes_decryption
    (JSON_parse : jsstring -> option json) (res : Response) :
  ok res = false ->
  (forall c c' : SafeChat,
     read_response JSON_parse c res = read_response JSON_parse c' res) /\
  (forall (c : SafeChat) (v : json),
     read_response JSON_parse c res <> Ok v) /\
  (forall (c : SafeChat) (i t d : jsstring),
     json_body res
     = Some (json_of_payload {| iv := Some i; tag := Some t; data := Some d |}) ->
     read_response JSON_parse c res
     = Err (SafeChatError (JString (js "HTTP " ++ decimal (status res)))
              (status res)
              (json_of_payload
                 {| iv := Some i; tag := Some t; data := Some d |}))).
Proof.
  intros O. unfold read_response. rewrite O. cbn [negb].
  repeat split.
  - intros c v.
    destruct (get_property _ (js "error")); cbn [bind]; [|discriminate].
    destruct (to_string _); cbn [bind]; discriminate.
  - intros c i t d ->. reflexivity.
Qed.

Lemma failure_status_precedes_decryption_witness :
  read_response Demo.parse Demo.keyed_client
    (Demo.response 429 (Some (js "true")) (Some Demo.envelope))
  = Err (SafeChatError (JString (js "HTTP 429")) 429 Demo.envelope).
Proof.
  exact (proj2 (proj2 (failure_status_precedes_decryption Demo.parse
           (Demo.response 429 (Some (js "true")) (Some Demo.envelope))
           eq_refl))
           Demo.keyed_client (js "AAECAwQFBgcICQoL")
           (js "JUjk1fTgptjAhWsgNr69zQ==") (js "W3l1PyhyR2IwXSzsBA==")
           eq_refl).
Defined.



(** X10. When the network gives no response.  After a client was
    constructed, a call whose [fetch] is aborted by the timer fails with
    an error whose message holds the configured timeout, printed as the
    template literal prints a number, and 30000 when none was given; any
    other rejection of [fetch] is passed on as it is.  Neither is turned
    into a result or into a [SafeChatError]. *)
Theorem no_response
    (JSON_stringify : json -> jsstring) (JSON_parse : jsstring -> option json)
    (options : SafeChatOptions.t) (c : SafeChat) (m path : jsstring)
    (b : option json) (rng rng' : entropy) (req : Request)
    (fetch : Request -> FetchOutcome) :
  constructor options = Ok c ->
  build_request JSON_stringify c m path b rng = (Ok req, rng') ->
  (fetch req = Aborted ->
   request JSON_stringify JSON_parse c m path b rng fetch
   = (Err (Error (js "SafeChat request timed out after "
                    ++ Number_toString
                         (nullish (SafeChatOptions.timeout options)
                            DEFAULT_TIMEOUT)
                    ++ js "ms")), rng')) /\
  (fetch req = Aborted ->
   SafeChatOptions.timeout options = None ->
   request JSON_stringify JSON_parse c m path b rng fetch
   = (Err (Error (js "SafeChat request timed out after 30000ms")), rng')) /\
  (forall cause,
     fetch req = Rejected cause ->
     request JSON_stringify JSON_parse c m path b rng fetch
     = (Err (NetworkError cause), rng')).
Proof.
  intros C B. unfold request. rewrite B.
  assert (T : timeout c = nullish (SafeChatOptions.timeout options)
                            DEFAULT_TIMEOUT).
  { unfold constructor in C.
    destruct (truthy_string (SafeChatOptions.apiKey options));
      [|discriminate].
    apply Ok_inj in C. subst c. reflexivity. }
  split; [|split].
  - intros ->. unfold timeout_message. now rewrite T.
  - intros -> D. unfold timeout_message. rewrite T, D. cbn [nullish].
    assert (P : Number_toString DEFAULT_TIMEOUT = js "30000")
      by (vm_compute; reflexivity).
    rewrite P. reflexivity.
  - intros cause ->. reflexivity.
Qed.

Lemma no_response_witness :
  usage Demo.stringify Demo.parse Demo.plain_client Demo.counting
    (fun _ => Aborted)
  = (Err (Error (js "SafeChat request timed out after 30000ms")),
     Demo.counting).
Proof.
  exact (proj1 (proj2 (no_response Demo.stringify Demo.parse
                  {| SafeChatOptions.apiKey := Some (js "sc_test_123");
                     SafeChatOptions.encryptionKey := None;
                     SafeChatOptions.baseUrl :=
                       Some (js "http://localhost:8080");
                     SafeChatOptions.timeout := None |}
                  Demo.plain_client (js "GET") (js "/v1/usage") None
                  Demo.counting Demo.counting _ (fun _ => Aborted)
                  eq_refl eq_refl)) eq_refl eq_refl).
Defined.

(** ** client.ts: the constructor *)

Lemma drop_slashes_idempotent (r : jsstring) :
  drop_slashes (drop_slashes r) = drop_slashes r.
Proof.
  induction r as [|x r IH]; [reflexivity|].
  cbn [drop_slashes]. destruct (N.eqb_spec x slash) as [->|E]; [exact IH|].
  cbn [drop_slashes]. apply N.eqb_neq in E. now rewrite E.
Qed.

Lemma strip_trailing_slashes_idempotent (s : jsstring) :
  strip_trailing_slashes (strip_trailing_slashes s) = strip_trailing_slashes s.
Proof.
  unfold strip_trailing_slashes.
  now rewrite rev_involutive, drop_slashes_idempotent.
Qed.

(** X11. The client that the constructor builds.  Its [apiKey] is the given,
    non-empty one; its base URL is the configured (or default) one
    without a number of trailing slashes and nothing else removed; and
    the client is in normal form: constructing again from its own fields
    gives the same client. *)
Theorem constructed_client (options : SafeChatOptions.t) (c : SafeChat) :
  constructor options = Ok c ->
  SafeChatOptions.apiKey options = Some (apiKey c) /\
  apiKey c <> [] /\
  (exists n,
     nullish (SafeChatOptions.baseUrl options) DEFAULT_BASE_URL
     = baseUrl c ++ repeat slash n) /\
  constructor {| SafeChatOptions.apiKey := Some (apiKey c);
                 SafeChatOptions.encryptionKey := encryptionKey c;
                 SafeChatOptions.baseUrl := Some (baseUrl c);
                 SafeChatOptions.timeout := Some (timeout c) |} = Ok c.
Proof.
  unfold constructor.
  destruct (SafeChatOptions.apiKey options) as [[|x k]|] eqn:A;
    cbn [truthy_string]; try discriminate.
  intros H. apply Ok_inj in H. subst c. cbn [apiKey baseUrl encryptionKey timeout].
  split; [reflexivity|]. split; [discriminate|]. split.
  - unfold strip_trailing_slashes.
    destruct (drop_slashes_decompose
                (rev (nullish (SafeChatOptions.baseUrl options)
                        DEFAULT_BASE_URL))) as [n D].
    exists n. apply (f_equal (@rev N)) in D.
    rewrite rev_involutive, rev_app_distr, rev_repeat in D. exact D.
  - cbn [nullish truthy_string SafeChatOptions.apiKey
         SafeChatOptions.baseUrl SafeChatOptions.encryptionKey
         SafeChatOptions.timeout].
    now rewrite strip_trailing_slashes_idempotent.
Qed.

Lemma constructed_client_witness :
  exists c,
    constructor {| SafeChatOptions.apiKey := Some (js "sc_test_123");
                   SafeChatOptions.encryptionKey := None;
                   SafeChatOptions.baseUrl := Some (js "http://localhost:8080//");
                   SafeChatOptions.timeout := None |} = Ok c /\
    js "http://localhost:8080//" = baseUrl c ++ repeat slash 2 /\
    timeout c = number_of_Z 30000.
Proof.
  eexists. split; [reflexivity|].
  destruct (constructed_client
              {| SafeChatOptions.apiKey := Some (js "sc_test_123");
                 SafeChatOptions.encryptionKey := None;
                 SafeChatOptions.baseUrl := Some (js "http://localhost:8080//");
                 SafeChatOptions.timeout := None |} _ eq_refl)
    as [_ [_ [_ _]]].
  split; reflexivity.
Defined.

(** ** client.ts: [revokeKey] and the path it calls *)

Lemma unreserved_ascii (c : N) : unreserved c = true -> c < 127.
Proof.
  unfold unreserved. cbn [existsb].
  rewrite !orb_true_iff, !andb_true_iff, !N.leb_le, !N.eqb_eq. lia.
Qed.









Lemma unreserved_not_surrogate (c : N) :
  unreserved c = true ->
  is_high_surrogate c = false /\ is_low_surrogate c = false /\
  (c <? 0x80) = true /\ (c =? percent_sign) = false.
Proof.
  intros U. pose proof (unreserved_ascii c U) as A.
  unfold is_high_surrogate, is_low_surrogate.
  assert (P : c <> percent_sign).
  { intros ->. discriminate U. }
  repeat split.
  - apply andb_false_iff. left. apply N.leb_gt. lia.
  - apply andb_false_iff. left. apply N.leb_gt. lia.
  - apply N.ltb_lt. lia.
  - now apply N.eqb_neq.
Qed.




(** [encodeURIComponent] throws exactly on the strings that hold an
    unpaired surrogate. *)
Lemma encodeURIComponent_defined (s : jsstring) :
  encodeURIComponent s <> None <-> Utf8.well_formed s.
Proof.
  unfold Utf8.well_formed.
  remember (length s) as n eqn:Hn.
  revert s Hn. induction n as [n IH] using lt_wf_ind.
  intros [|c rest] Hn; cbn [encodeURIComponent Utf8.sanitize].
  - split; [reflexivity|discriminate].
  - subst n.
    assert (IHrest : encodeURIComponent rest <> None
                     <-> Utf8.sanitize rest = rest).
    { apply (IH (length rest)); cbn; auto. }
    assert (O : forall (A B : Type) (f : A -> B) (x : option A),
              option_map f x <> None <-> x <> None).
    { intros A B f [x|]; cbn; split; congruence. }
    assert (C : forall (x : N) (l l' : jsstring), l = l' <-> x :: l = x :: l').
    { intros x l l'. split; congruence. }
    destruct (unreserved c) eqn:U.
    { destruct (unreserved_not_surrogate c U) as [-> [-> _]].
      rewrite O, IHrest. apply C. }
    destruct (is_high_surrogate c) eqn:Hh.
    { pose proof (proj1 (proj1 (surrogate_tests c)) Hh) as B.
      destruct rest as [|d rest'].
      - split; [congruence|]. intros [= F]. lia.
      - destruct (is_low_surrogate d).
        + rewrite O, (IH (length rest') ltac:(cbn; lia) rest' eq_refl).
          split; congruence.
        + split; [congruence|]. intros [= F _]. lia. }
    destruct (is_low_surrogate c) eqn:Hl.
    { pose proof (proj1 (proj2 (surrogate_tests c)) Hl) as B.
      split; [congruence|]. intros [= F _]. lia. }
    rewrite O, IHrest. apply C.
Qed.



(** X14. [revokeKey] throws the URIError of [encodeURIComponent], and calls
    nothing, exactly when the id holds an unpaired surrogate. *)
Theorem revokeKey_rejects_unpaired_surrogates
    (JSON_stringify : json -> jsstring) (JSON_parse : jsstring -> option json)
    (c : SafeChat) (id : jsstring) (rng : entropy)
    (fetch : Request -> FetchOutcome) :
  revokeKey JSON_stringify JSON_parse c id rng fetch = None
  <-> ~ Utf8.well_formed id.
Proof.
  rewrite <- encodeURIComponent_defined. unfold revokeKey.
  destruct (encodeURIComponent id); split; try congruence.
  intros H. exfalso. apply H. discriminate.
Qed.

(** ** client.ts: the body of [wrap] *)

Lemma jsstring_eqb_sym (a b : jsstring) : jsstring_eqb a b = jsstring_eqb b a.
Proof.
  destruct (jsstring_eqb b a) eqn:E.
  - apply jsstring_eqb_eq. symmetry. now apply jsstring_eqb_eq.
  - apply jsstring_eqb_neq. intros ->. now rewrite jsstring_eqb_refl in E.
Qed.

Lemma lookup_absent (A : Type) (k : jsstring) (o : list (jsstring * A)) :
  ~ In k (map fst o) -> lookup k o = None.
Proof.
  induction o as [|[k' v] o IH]; cbn [lookup map fst In]; [reflexivity|].
  intros H. rewrite (jsstring_eqb_neq k' k) by tauto. apply IH. tauto.
Qed.

Lemma lookup_assign (k k' : jsstring) (v : option json) (o : jsobject) :
  lookup k (assign k' v o)
  = if jsstring_eqb k' k then Some v else lookup k o.
Proof.
  induction o as [|[k0 v0] o IH]; cbn [assign lookup].
  - reflexivity.
  - destruct (jsstring_eqb k0 k') eqn:E.
    + apply jsstring_eqb_eq in E. subst k0. cbn [lookup].
      now destruct (jsstring_eqb k' k).
    + cbn [lookup]. destruct (jsstring_eqb k0 k) eqn:F; [|exact IH].
      apply jsstring_eqb_eq in F. subst k0.
      now rewrite (jsstring_eqb_sym k' k), E.
Qed.

Lemma assign_keys (x k : jsstring) (v : option json) (o : jsobject) :
  In x (map fst (assign k v o)) -> x = k \/ In x (map fst o).
Proof.
  induction o as [|[k0 v0] o IH]; cbn [assign map fst In].
  - intros [H|[]]. now left.
  - destruct (jsstring_eqb k0 k) eqn:E; cbn [map fst In].
    + apply jsstring_eqb_eq in E. subst k0.
      intros [H|H]; [now left|now right; right].
    + intros [H|H]; [now right; left|]. apply IH in H. tauto.
Qed.

Lemma assign_NoDup (k : jsstring) (v : option json) (o : jsobject) :
  NoDup (map fst o) -> NoDup (map fst (assign k v o)).
Proof.
  induction o as [|[k0 v0] o IH]; cbn [assign map fst]; intros H.
  - repeat constructor. tauto.
  - inversion H as [|? ? N D]; subst.
    destruct (jsstring_eqb k0 k) eqn:E; cbn [map fst].
    + apply jsstring_eqb_eq in E. subst k0. now constructor.
    + constructor; [|now apply IH].
      intros I. apply assign_keys in I. destruct I as [->|I]; [|tauto].
      now rewrite jsstring_eqb_refl in E.
Qed.

Lemma spread_properties (src acc : jsobject) :
  NoDup (map fst src) -> NoDup (map fst acc) ->
  NoDup (map fst (spread acc (Some src))) /\
  forall k, lookup k (spread acc (Some src))
            = match lookup k src with
              | Some v => Some v
              | None => lookup k acc
              end.
Proof.
  unfold spread. cbn [nullish].
  revert acc. induction src as [|[k0 v0] src IH]; intros acc Ds Da.
  - split; [exact Da|reflexivity].
  - inversion Ds as [|? ? N D]; subst. cbn [fold_left fst snd].
    destruct (IH (assign k0 v0 acc) D (assign_NoDup k0 v0 acc Da))
      as [Dr L].
    split; [exact Dr|]. intros k. rewrite L, lookup_assign. cbn [lookup].
    destruct (jsstring_eqb k0 k) eqn:E; [|reflexivity].
    apply jsstring_eqb_eq in E. subst k0.
    now rewrite (lookup_absent _ k src N).
Qed.

Lemma lookup_defined (o : jsobject) (k : jsstring) :
  NoDup (map fst o) ->
  lookup k (flat_map (fun kv => match snd kv with
                                | Some v => [(fst kv, v)]
                                | None => []
                                end) o)
  = match lookup k o with
    | Some v => v
    | None => None
    end.
Proof.
  induction o as [|[k0 [v0|]] o IH]; intros D; [reflexivity| |];
    inversion D as [|? ? N D']; subst; cbn [flat_map snd fst app lookup].
  - destruct (jsstring_eqb k0 k); [reflexivity|now apply IH].
  - destruct (jsstring_eqb k0 k) eqn:E; [|now apply IH].
    apply jsstring_eqb_eq in E. subst k0.
    rewrite IH by assumption. now rewrite (lookup_absent _ k o N).
Qed.

(** X15. [wrap] sends [{ text, ...options }]: the properties of the options
    are sent with their values, a property of the options whose value
    is [undefined] is not sent, and [text] is sent with the text given
    unless the options have a property of that name, which then takes
    its place. *)
Theorem wrap_body
    (JSON_stringify : json -> jsstring) (JSON_parse : jsstring -> option json)
    (c : SafeChat) (text : jsstring) (options : option jsobject) :
  NoDup (map fst (nullish options [])) ->
  exists fields,
    wrap JSON_stringify JSON_parse c text options
    = post JSON_stringify JSON_parse c (js "/v1/wrap") (JObject fields) /\
    forall k,
      lookup k fields
      = match lookup k (nullish options []) with
        | Some v => v
        | None =>
            if jsstring_eqb k (js "text") then Some (JString text) else None
        end.
Proof.
  intros D. eexists. split; [reflexivity|]. intros k.
  assert (S : NoDup (map fst (spread [(js "text", Some (JString text))]
                                (Some (nullish options [])))) /\
              forall k, lookup k (spread [(js "text", Some (JString text))]
                                    (Some (nullish options [])))
                        = match lookup k (nullish options []) with
                          | Some v => Some v
                          | None => lookup k [(js "text", Some (JString text))]
                          end).
  { apply spread_properties; [exact D|]. repeat constructor. cbn. tauto. }
  assert (Q : spread [(js "text", Some (JString text))] options
              = spread [(js "text", Some (JString text))]
                  (Some (nullish options []))).
  { now destruct options. }
  rewrite Q. destruct S as [Dr L].
  rewrite lookup_defined by assumption. rewrite L. cbn [lookup].
  destruct (lookup k (nullish options [])); [reflexivity|].
  rewrite (jsstring_eqb_sym (js "text") k).
  now destruct (jsstring_eqb k (js "text")).
Qed.

Lemma wrap_body_witness :
  exists fields,
    wrap Demo.stringify Demo.parse Demo.plain_client (js "hi")
      (Some [(js "role", Some (JString (js "buyer"))); (js "jobId", None)])
    = post Demo.stringify Demo.parse Demo.plain_client (js "/v1/wrap")
        (JObject fields) /\
    lookup (js "text") fields = Some (JString (js "hi")) /\
    lookup (js "role") fields = Some (JString (js "buyer")) /\
    lookup (js "jobId") fields = None.
Proof.
  assert (D : NoDup (map fst (nullish
                (Some [(js "role", Some (JString (js "buyer")));
                       (js "jobId", @None json)]) []))).
  { repeat constructor; cbn; intuition discriminate. }
  destruct (wrap_body Demo.stringify Demo.parse Demo.plain_client (js "hi")
              (Some [(js "role", Some (JString (js "buyer")));
                     (js "jobId", None)]) D) as [fields [W L]].
  exists fields. split; [exact W|]. rewrite !L. repeat split.
Defined.
